(** * gitric: seeding a remote git repository and blue/green switching

    A shallow embedding of [gitric/api.py].  The module is a Fabric script:
    every function reads and writes the process-wide dictionary [env] and
    talks to the outside through Fabric's [local], [run], [sudo] and
    [exists].  The embedding threads the dictionary, the outside world and a
    log of executor invocations through a state-and-failure monad.  [puts]
    only prints and is left out. *)

From Stdlib Require Import Ascii.
From stdpp Require Import gmap strings list fin_maps pretty.

Open Scope string_scope.
Open Scope list_scope.

(** ** Python values held in [env] *)

Inductive value :=
  | VStr (s : string)
  | VBool (b : bool)
  | VInt (n : Z)
  | VNone
  | VPorts (m : gmap string Z).

(** [bool(v)] *)
Definition truthy (v : value) : bool :=
  match v with
  | VStr s => negb (String.eqb s "")
  | VBool b => b
  | VInt n => negb (n =? 0)%Z
  | VNone => false
  | VPorts m => negb (bool_decide (m = ∅))
  end.

(** [str(v)], as [%s] formats it.  The text of a dictionary is not needed by
    any command of the module; it is rendered by a placeholder. *)
Definition str (v : value) : string :=
  match v with
  | VStr s => s
  | VBool true => "True"
  | VBool false => "False"
  | VInt n => pretty n
  | VNone => "None"
  | VPorts _ => "{...}"
  end.

(** An optional string argument ([None] by default) used in [a or b]. *)
Definition given (o : option string) : option string :=
  match o with
  | Some s => if String.eqb s "" then None else Some s
  | None => None
  end.

(** ** String helpers: [in], [os.path.join], [os.path.basename] *)

Fixpoint startswith (pre s : string) : bool :=
  match pre with
  | "" => true
  | String a pre' =>
      match s with
      | "" => false
      | String b s' => Ascii.eqb a b && startswith pre' s'
      end
  end.

(** [sub in s] *)
Fixpoint contains (sub s : string) : bool :=
  startswith sub s
  || match s with
     | "" => false
     | String _ s' => contains sub s'
     end.

Fixpoint endswith_slash (s : string) : bool :=
  match s with
  | "" => false
  | String c "" => Ascii.eqb c "/"%char
  | String _ r => endswith_slash r
  end.

(** [posixpath.join(a, b)]: an absolute [b] replaces [a]; otherwise [b] is
    appended, after a slash unless [a] is empty or already ends in one. *)
Definition path_join (a b : string) : string :=
  if startswith "/" b then b
  else if String.eqb a "" || endswith_slash a then a +:+ b
  else a +:+ "/" +:+ b.

(** [posixpath.basename(p)]: what follows the last slash. *)
Fixpoint basename (p : string) : string :=
  match p with
  | "" => ""
  | String c r =>
      if contains "/" r then basename r
      else if Ascii.eqb c "/"%char then r
      else String c r
  end.

(** ** Commands and the outside world *)

(** Commands sent to the remote host.  The module formats each one as a
    shell line; [render] gives that line.  Path arguments are taken to be
    free of blanks and shell metacharacters, so that the shell passes them
    on as written. *)
Inductive rcmd :=
  | TestE (p : string)
  | MkdirP (ps : list string)
  | LnS (target link : string)
  | LnNSF (target link : string)
  | ReadlinkF (p : string)
  | Git (args : string).

Definition dquote : string := String (Ascii.ascii_of_nat 34) "".
Definition newline : string := String (Ascii.ascii_of_nat 10) "".

Fixpoint unwords (l : list string) : string :=
  match l with
  | [] => ""
  | [x] => x
  | x :: r => x +:+ " " +:+ unwords r
  end.

Definition render (c : rcmd) : string :=
  match c with
  | TestE p => "test -e " +:+ dquote +:+ "$(echo " +:+ p +:+ ")" +:+ dquote
  | MkdirP ps => "mkdir -p " +:+ unwords ps
  | LnS t l => "ln -s " +:+ t +:+ " " +:+ l
  | LnNSF t l => "ln -nsf " +:+ t +:+ " " +:+ l
  | ReadlinkF p => "readlink -f " +:+ p
  | Git a => "git " +:+ a
  end.

(** What an executor hands back: captured standard output (stripped) and
    whether the exit status counted as a failure. *)
Record reply := Reply { stdout : string; failed : bool }.

(** [run] is [None]; [sudo(user=u)] is [Some u]. *)
Definition elevation := option (option string).

Inductive event :=
  | ELocal (cmd : string)
  | ERemote (who : elevation) (cwd : string) (c : rcmd).

(** The remote command executor of the specification, together with the
    local one. *)
Class Executor (W : Type) := {
  exec_local : string → W → reply * W;
  exec_remote : elevation → string → rcmd → W → reply * W
}.

(** ** The monad *)

Inductive failure :=
  | Aborted (msg : string)            (* [abort(msg)] *)
  | CommandFailed (line : string)     (* a command failed outside warn-only mode *)
  | MissingState (keys : list string) (* [require] *)
  | PyError (what : string).          (* an uncaught Python exception *)

Record state (W : Type) := State {
  env : gmap string value;
  world : W;
  log : list event
}.
Arguments State {W} _ _ _.
Arguments env {W} _.
Arguments world {W} _.
Arguments log {W} _.

Inductive outcome (W A : Type) :=
  | Ok (a : A) (s : state W)
  | Err (f : failure) (s : state W).
Arguments Ok {W A} _ _.
Arguments Err {W A} _ _.

Definition M (W A : Type) : Type := state W → outcome W A.

Definition ret {W A} (a : A) : M W A := fun s => Ok a s.

Definition bind {W A B} (m : M W A) (k : A → M W B) : M W B :=
  fun s => match m s with
           | Ok a s' => k a s'
           | Err f s' => Err f s'
           end.

Definition fail {W A} (f : failure) : M W A := fun s => Err f s.

Notation "'let!' x ':=' m 'in' k" := (bind m (fun x => k))
  (at level 10, x name, m at level 100, k at level 200).
Notation "'do!' m 'in' k" := (bind m (fun _ => k))
  (at level 10, m at level 100, k at level 200).

Definition final_state {W A} (o : outcome W A) : state W :=
  match o with
  | Ok _ s => s
  | Err _ s => s
  end.

Section Fabric.
Context {W : Type} `{Executor W}.

(** *** Access to [env] *)

Definition set_env (k : string) (v : value) : M W unit :=
  fun s => Ok tt (State (<[k:=v]> (env s)) (world s) (log s)).

(** [k in env] *)
Definition env_has (k : string) : M W bool :=
  fun s => Ok (bool_decide (is_Some (env s !! k))) s.

(** [env.k]; a missing attribute raises [AttributeError]. *)
Definition env_get (k : string) : M W value :=
  fun s => match env s !! k with
           | Some v => Ok v s
           | None => Err (PyError "AttributeError") s
           end.

(** [%(k)s] in a format applied to [env]; a missing key raises
    [KeyError]. *)
Definition env_fmt (k : string) : M W string :=
  fun s => match env s !! k with
           | Some v => Ok (str v) s
           | None => Err (PyError "KeyError") s
           end.

(** A value used where [os.path] wants a string. *)
Definition as_str (v : value) : M W string :=
  match v with
  | VStr x => ret x
  | _ => fail (PyError "TypeError")
  end.

Definition warn_only (s : state W) : bool :=
  match env s !! "warn_only" with
  | Some v => truthy v
  | None => false
  end.

Definition cwd (s : state W) : string :=
  match env s !! "cwd" with
  | Some v => str v
  | None => ""
  end.

(** *** Fabric primitives *)

Definition abort {A} (msg : string) : M W A := fail (Aborted msg).

(** [with settings(k=v): body].  The previous binding of [k] comes back
    when the block is left, also when it is left by a failure. *)
Definition settings {A} (k : string) (v : value) (body : M W A) : M W A :=
  fun s =>
    let restore s' :=
      State (match env s !! k with
             | Some old => <[k:=old]> (env s')
             | None => delete k (env s')
             end) (world s') (log s') in
    match body (State (<[k:=v]> (env s)) (world s) (log s)) with
    | Ok a s' => Ok a (restore s')
    | Err f s' => Err f (restore s')
    end.

(** [with cd(path): body] *)
Definition cd {A} (path : string) (body : M W A) : M W A :=
  fun s =>
    let here := cwd s in
    let new_cwd :=
      if negb (String.eqb here "") && negb (startswith "/" path)
         && negb (startswith "~" path)
      then here +:+ "/" +:+ path else path in
    settings "cwd" (VStr new_cwd) body s.

(** [local(line, capture=...)]: the reply carries [failed]; its text is
    the command's output only when captured.  A failure aborts unless
    [env.warn_only] holds. *)
Definition local (line : string) (capture : bool) : M W reply :=
  fun s =>
    let '(r, w) := exec_local line (world s) in
    let s' := State (env s) w (log s ++ [ELocal line]) in
    let r' := Reply (if capture then stdout r else "") (failed r) in
    if failed r && negb (warn_only s) then Err (CommandFailed line) s'
    else Ok r' s'.

Definition remote (who : elevation) (quiet : bool) (c : rcmd) : M W reply :=
  fun s =>
    let '(r, w) := exec_remote who (cwd s) c (world s) in
    let s' := State (env s) w (log s ++ [ERemote who (cwd s) c]) in
    if failed r && negb (quiet || warn_only s)
    then Err (CommandFailed (render c)) s'
    else Ok r s'.

(** [run(cmd)], [run(cmd, quiet=True)] *)
Definition run (c : rcmd) : M W string :=
  let! r := remote None false c in ret (stdout r).

(** [exists(path, use_sudo=...)]: a [test -e] whose failure is the
    answer, never an abort. *)
Definition exists_ (path : string) (use_sudo : bool) : M W bool :=
  let! r := remote (if use_sudo then Some None else None) true (TestE path) in
  ret (negb (failed r)).

(** [require(keys...)]: a key counts as missing when it is absent or bound
    to an empty container. *)
Definition provided (e : gmap string value) (k : string) : bool :=
  match e !! k with
  | None => false
  | Some (VPorts m) => negb (bool_decide (m = ∅))
  | Some _ => true
  end.

Definition require (keys : list string) : M W unit :=
  fun s =>
    match filter (fun k => provided (env s) k = false) keys with
    | [] => Ok tt s
    | missing => Err (MissingState missing) s
    end.

(** *** [_do], [git_init], [git_current_branch_name], [git_head_rev] *)

Definition _do (use_sudo : bool) (sudo_user : option string)
    (quiet : bool) (c : rcmd) : M W reply :=
  if use_sudo then remote (Some sudo_user) quiet c
  else remote None quiet c.

(** The two opt-in tasks. *)
Definition allow_dirty : M W unit := set_env "gitric_allow_dirty" (VBool true).

Definition force_push : M W unit := set_env "gitric_force_push" (VBool true).

Definition git_init (repo_path : string) (use_sudo : bool)
    (sudo_user : option string) : M W unit :=
  let do_ := _do use_sudo sudo_user in
  let _config :=
    do! do_ false (Git "config receive.denyCurrentBranch ignore") in ret tt in
  let! there := exists_ (repo_path +:+ "/.git") use_sudo in
  if there then _config
  else
    do! do_ true (MkdirP [repo_path]) in
    cd repo_path (do! do_ false (Git "init") in _config).

Definition git_current_branch_name : M W string :=
  let! r := local "git rev-parse --abbrev-ref HEAD" true in ret (stdout r).

Definition git_head_rev : M W string :=
  let! r := local "git rev-parse HEAD" true in ret (stdout r).

(** *** [git_is_dirty] *)

Definition status_line (ignore_untracked_files : bool) : string :=
  "git status " +:+
  (if ignore_untracked_files then "--untracked-files=no" else "") +:+
  " --porcelain".

Definition git_is_dirty (ignore_untracked_files : bool) : M W bool :=
  let! allowed := env_has "gitric_allow_dirty" in
  if allowed then ret false
  else
    let! r := local (status_line ignore_untracked_files) true in
    ret (negb (String.eqb (stdout r) "")).

(** *** [git_seed] *)

Definition dirty_msg : string :=
  "Working copy is dirty. This check can be overridden by" +:+ newline +:+
  "importing gitric.api.allow_dirty and adding allow_dirty to your " +:+
  "call.".

Definition not_in_branch_msg (commit branch : string) : string :=
  "Can not push: commit " +:+ commit +:+ " is not in branch " +:+ branch.

Definition non_fast_forward_msg (commit : string) : string :=
  commit +:+ " is a non-fast-forward" +:+ newline +:+
  "push. The seed will abort so you don't lose information. " +:+
  "If you are doing this" +:+ newline +:+ "intentionally import " +:+
  "gitric.api.force_push and add it to your call.".

Definition contains_line (commit : string) : string :=
  "git branch --contains " +:+ commit.

(** ['git push git+ssh://%s@%s:%s%s %s:refs/heads/%s %s'] *)
Definition push_line (user host port repo_path commit remote_branch
    force : string) : string :=
  "git push git+ssh://" +:+ user +:+ "@" +:+ host +:+ ":" +:+ port +:+
  repo_path +:+ " " +:+ commit +:+ ":refs/heads/" +:+ remote_branch +:+
  " " +:+ force.

(** [commit or git_head_rev()] *)
Definition resolve_commit (commit : option string) : M W string :=
  match given commit with
  | Some c => ret c
  | None => git_head_rev
  end.

(** Lines 83-86: the branch named by the caller, or else the current
    local branch, which must then list the commit. *)
Definition resolve_branch (commit : string) (remote_branch : option string)
    : M W string :=
  match given remote_branch with
  | Some b => ret b
  | None =>
      let! b := git_current_branch_name in
      let! listing := local (contains_line commit) true in
      if negb (contains ("* " +:+ b) (stdout listing))
      then abort (not_in_branch_msg commit b)
      else ret b
  end.

(** [remote_git_user or sudo_user or env.user] *)
Definition resolve_user (remote_git_user sudo_user : option string)
    : M W string :=
  match given remote_git_user with
  | Some u => ret u
  | None =>
      match given sudo_user with
      | Some u => ret u
      | None => let! u := env_get "user" in ret (str u)
      end
  end.

(** Lines 98-102: the push, under [settings(warn_only=True)]. *)
Definition push (repo_path commit remote_branch user : string)
    : M W reply :=
  settings "warn_only" (VBool true)
    (let! forced := env_has "gitric_force_push" in
     let force := if forced : bool then "-f" else "" in
     let! host := env_get "host" in
     let! port := env_get "port" in
     local (push_line user (str host) (str port) repo_path commit
              remote_branch force) false).

Definition git_seed (repo_path : string) (commit remote_branch : option string)
    (ignore_untracked_files use_sudo : bool)
    (sudo_user remote_git_user : option string) : M W unit :=
  let! dirty_working_copy := git_is_dirty ignore_untracked_files in
  do! (if dirty_working_copy : bool then abort dirty_msg else ret tt) in
  do! git_init repo_path use_sudo sudo_user in
  let! commit := resolve_commit commit in
  let! remote_branch := resolve_branch commit remote_branch in
  let! remote_git_user := resolve_user remote_git_user sudo_user in
  let! pushed := push repo_path commit remote_branch remote_git_user in
  if failed pushed
  then abort (non_fast_forward_msg commit)
  else ret tt.

(** *** [git_reset] *)

Definition git_reset (repo_path : string) (commit : option string)
    (use_sudo : bool) (sudo_user : option string) : M W unit :=
  let do_ := _do use_sudo sudo_user in
  let! commit := resolve_commit commit in
  cd repo_path (do! do_ false (Git ("reset --hard " +:+ commit)) in ret tt).

(** Stages of [git_seed], for stating how far a run got: up to the
    resolved commit (lines 70-82), and up to the push (lines 70-96). *)
Definition seed_commit (repo_path : string) (commit : option string)
    (ignore_untracked_files use_sudo : bool) (sudo_user : option string)
    : M W string :=
  let! dirty_working_copy := git_is_dirty ignore_untracked_files in
  do! (if dirty_working_copy : bool then abort dirty_msg else ret tt) in
  do! git_init repo_path use_sudo sudo_user in
  resolve_commit commit.

Definition seed_resolved (repo_path : string)
    (commit remote_branch : option string)
    (ignore_untracked_files use_sudo : bool)
    (sudo_user remote_git_user : option string)
    : M W (string * string * string) :=
  let! commit :=
    seed_commit repo_path commit ignore_untracked_files use_sudo sudo_user in
  let! remote_branch := resolve_branch commit remote_branch in
  let! remote_git_user := resolve_user remote_git_user sudo_user in
  ret (commit, remote_branch, remote_git_user).

(** [('gitric_force_push' in env) and '-f' or ''] *)
Definition force_flag (s : state W) : string :=
  if bool_decide (is_Some (env s !! "gitric_force_push")) then "-f" else "".

(** *** [init_bluegreen], [swap_bluegreen] *)

(** [env.k] where a path string is expected. *)
Definition env_path (k : string) : M W string :=
  let! v := env_get k in as_str v.

(** [env.bluegreen_ports.get(env.color)]: the mapping is looked up first;
    a color that is no key of it, string or not, gives [None]. *)
Definition port_of : M W value :=
  let! ports := env_get "bluegreen_ports" in
  match ports with
  | VPorts m =>
      let! color := env_get "color" in
      ret (match color with
           | VStr c => match m !! c with
                       | Some n => VInt n
                       | None => VNone
                       end
           | _ => VNone
           end)
  | _ => fail (PyError "AttributeError")
  end.

Definition init_bluegreen : M W unit :=
  do! require ["bluegreen_root"; "bluegreen_ports"] in
  let! root := env_path "bluegreen_root" in
  do! set_env "green_path" (VStr (path_join root "green")) in
  let! root := env_path "bluegreen_root" in
  do! set_env "blue_path" (VStr (path_join root "blue")) in
  let! root := env_path "bluegreen_root" in
  do! set_env "next_path_abs" (VStr (path_join root "next")) in
  let! root := env_path "bluegreen_root" in
  do! set_env "live_path_abs" (VStr (path_join root "live")) in
  let! root := env_fmt "bluegreen_root" in
  let! blue := env_fmt "blue_path" in
  let! green := env_fmt "green_path" in
  do! run (MkdirP [root; blue; green; blue +:+ "/etc"; green +:+ "/etc"]) in
  let! live_abs := env_get "live_path_abs" in
  let! live_there := exists_ (str live_abs) false in
  do! (if live_there then ret tt
       else
         let! blue := env_fmt "blue_path" in
         let! live_abs := env_fmt "live_path_abs" in
         do! run (LnS blue live_abs) in ret tt) in
  let! next_abs := env_get "next_path_abs" in
  let! next_there := exists_ (str next_abs) false in
  do! (if next_there then ret tt
       else
         let! green := env_fmt "green_path" in
         let! next_abs := env_fmt "next_path_abs" in
         do! run (LnS green next_abs) in ret tt) in
  let! next_abs := env_fmt "next_path_abs" in
  let! next_path := run (ReadlinkF next_abs) in
  do! set_env "next_path" (VStr next_path) in
  let! live_abs := env_fmt "live_path_abs" in
  let! live_path := run (ReadlinkF live_abs) in
  do! set_env "live_path" (VStr live_path) in
  let! next_path := env_path "next_path" in
  do! set_env "virtualenv_path" (VStr (path_join next_path "env")) in
  let! next_path := env_path "next_path" in
  do! set_env "pidfile"
        (VStr (path_join (path_join next_path "etc") "app.pid")) in
  let! next_path := env_path "next_path" in
  do! set_env "nginx_conf"
        (VStr (path_join (path_join next_path "etc") "nginx.conf")) in
  let! next_path := env_path "next_path" in
  do! set_env "color" (VStr (basename next_path)) in
  let! port := port_of in
  set_env "bluegreen_port" port.

Definition swap_bluegreen : M W unit :=
  do! require ["next_path"; "live_path"; "live_path_abs"; "next_path_abs"] in
  let! next_path := env_fmt "next_path" in
  let! live_abs := env_fmt "live_path_abs" in
  do! run (LnNSF next_path live_abs) in
  let! live_path := env_fmt "live_path" in
  let! next_abs := env_fmt "next_path_abs" in
  do! run (LnNSF live_path next_abs) in
  ret tt.

End Fabric.

(** ** The remote host of the blue/green layout

    The host is modelled at the granularity the module uses it: a store from
    path names to what is found there.  Names are compared as written, which
    is how absolute, normalised names behave; a link's target is the name
    it leads to. *)

Inductive node :=
  | Dir
  | File
  | Link (target : string).

Abbreviation store := (gmap string node).

(** The number of links the host follows before it gives up on a name. *)
Definition SYMLOOP_MAX : nat := 40.

Fixpoint follow (fuel : nat) (fs : store) (p : string) : option string :=
  match fs !! p with
  | Some (Link t) =>
      match fuel with
      | O => None
      | S n => follow n fs t
      end
  | _ => Some p
  end.

Definition realpath (fs : store) (p : string) : option string :=
  follow SYMLOOP_MAX fs p.

(** [test -e p]: links are followed, and something must be at the end. *)
Definition test_e (fs : store) (p : string) : bool :=
  match realpath fs p with
  | Some q => bool_decide (is_Some (fs !! q))
  | None => false
  end.

Definition is_directory (fs : store) (p : string) : bool :=
  match realpath fs p with
  | Some q => match fs !! q with
              | Some Dir => true
              | _ => false
              end
  | None => false
  end.

(** [mkdir -p] goes through its operands in order: a directory (also behind
    links) is left alone, a free name becomes a directory, anything else is
    an error that does not stop the remaining operands. *)
Definition mkdir_p1 (acc : store * bool) (p : string) : store * bool :=
  if is_directory acc.1 p then acc
  else match acc.1 !! p with
       | None => (<[p:=Dir]> acc.1, acc.2)
       | Some _ => (acc.1, true)
       end.

Definition mkdir_p (fs : store) (ps : list string) : store * bool :=
  foldl mkdir_p1 (fs, false) ps.

(** [ln -s t l]: into [l] when that is a directory, else at the free name
    [l]; never over something that is there. *)
Definition ln_s (fs : store) (t l : string) : store * bool :=
  let at_ dest :=
    match fs !! dest with
    | None => (<[dest:=Link t]> fs, false)
    | Some _ => (fs, true)
    end in
  if is_directory fs l then
    match realpath fs l with
    | Some d => at_ (d +:+ "/" +:+ basename t)
    | None => (fs, true)
    end
  else at_ l.

(** [ln -nsf t l]: a link [l] is itself replaced, whatever it leads to; only
    a real directory [l] is entered.  A directory is never overwritten. *)
Definition ln_nsf (fs : store) (t l : string) : store * bool :=
  match fs !! l with
  | Some Dir =>
      let dest := l +:+ "/" +:+ basename t in
      match fs !! dest with
      | Some Dir => (fs, true)
      | _ => (<[dest:=Link t]> fs, false)
      end
  | _ => (<[l:=Link t]> fs, false)
  end.

Definition host_remote (c : rcmd) (fs : store) : reply * store :=
  match c with
  | TestE p => (Reply "" (negb (test_e fs p)), fs)
  | MkdirP ps => let '(fs', bad) := mkdir_p fs ps in (Reply "" bad, fs')
  | LnS t l => let '(fs', bad) := ln_s fs t l in (Reply "" bad, fs')
  | LnNSF t l => let '(fs', bad) := ln_nsf fs t l in (Reply "" bad, fs')
  | ReadlinkF p =>
      match realpath fs p with
      | Some q => (Reply q false, fs)
      | None => (Reply "" true, fs)
      end
  | Git _ => (Reply "" false, fs)
  end.

#[export] Instance host_executor : Executor store := {
  exec_local _ fs := (Reply "" false, fs);
  exec_remote _ _ c fs := host_remote c fs
}.

(** Where a link of the layout leads on the host, links followed. *)
Definition points_to (fs : store) (link : string) : option string :=
  realpath fs link.

(** ** [init_bluegreen] and [swap_bluegreen] on the host

    What the two functions do to the dictionary and to the store, with the
    dictionary look-ups resolved; [init_bluegreen_pure] and
    [swap_bluegreen_pure] below show that the functions compute exactly
    this. *)

(** A command's reply outside and inside warn-only mode. *)
Definition guard (warn : bool) (r : reply * store) : option (string * store) :=
  if failed r.1 && negb warn then None else Some (stdout r.1, r.2).

Definition layout_dirs (root : string) : list string :=
  [root; path_join root "blue"; path_join root "green";
   path_join root "blue" +:+ "/etc"; path_join root "green" +:+ "/etc"].

(** Lines 144-147. *)
Definition paths_env (root : string) (e : gmap string value)
    : gmap string value :=
  <["live_path_abs" := VStr (path_join root "live")]>
    (<["next_path_abs" := VStr (path_join root "next")]>
       (<["blue_path" := VStr (path_join root "blue")]>
          (<["green_path" := VStr (path_join root "green")]> e))).

Definition port_value (ports : gmap string Z) (color : string) : value :=
  match ports !! color with
  | Some n => VInt n
  | None => VNone
  end.

(** Lines 154-160. *)
Definition derived_env (next_path live_path : string) (ports : gmap string Z)
    (e : gmap string value) : gmap string value :=
  <["bluegreen_port" := port_value ports (basename next_path)]>
    (<["color" := VStr (basename next_path)]>
       (<["nginx_conf" :=
            VStr (path_join (path_join next_path "etc") "nginx.conf")]>
          (<["pidfile" :=
               VStr (path_join (path_join next_path "etc") "app.pid")]>
             (<["virtualenv_path" := VStr (path_join next_path "env")]>
                (<["live_path" := VStr live_path]>
                   (<["next_path" := VStr next_path]> e)))))).

(** Lines 150-153: [if not exists(l): run('ln -s t l')]. *)
Definition link_unless_there (warn : bool) (fs : store) (t l : string)
    : option store :=
  if test_e fs l then Some fs
  else match guard warn (host_remote (LnS t l) fs) with
       | Some (_, fs') => Some fs'
       | None => None
       end.

Definition init_pure (root : string) (ports : value) (warn : bool)
    (e : gmap string value) (fs : store)
    : option (gmap string value * store) :=
  match guard warn (host_remote (MkdirP (layout_dirs root)) fs) with
  | None => None
  | Some (_, fs1) =>
  match link_unless_there warn fs1 (path_join root "blue")
          (path_join root "live") with
  | None => None
  | Some fs2 =>
  match link_unless_there warn fs2 (path_join root "green")
          (path_join root "next") with
  | None => None
  | Some fs3 =>
  match guard warn (host_remote (ReadlinkF (path_join root "next")) fs3) with
  | None => None
  | Some (next_path, _) =>
  match guard warn (host_remote (ReadlinkF (path_join root "live")) fs3) with
  | None => None
  | Some (live_path, _) =>
      match ports with
      | VPorts m =>
          Some (derived_env next_path live_path m (paths_env root e), fs3)
      | _ => None
      end
  end end end end end.

Definition swap_pure (warn : bool) (next_path live_path live_abs next_abs
    : string) (fs : store) : option store :=
  match guard warn (host_remote (LnNSF next_path live_abs) fs) with
  | None => None
  | Some (_, fs1) =>
      match guard warn (host_remote (LnNSF live_path next_abs) fs1) with
      | None => None
      | Some (_, fs2) => Some fs2
      end
  end.

(** The scenario of the specification: an empty host, root [/srv/app],
    ports 8001 and 8002. *)
Definition scenario : state store :=
  State
    (<["bluegreen_root" := VStr "/srv/app"]>
       (<["bluegreen_ports" :=
            VPorts (<["blue" := 8001%Z]> (<["green" := 8002%Z]> ∅))]>
          (<["warn_only" := VBool false]> ∅)))
    ∅ [].

(** C1 as the specification states it: after [init] and [swap], a second
    [swap] leaves [live] and [next] leading where they led before the
    first. *)
Definition swap_is_own_inverse : Prop :=
  ∀ (s0 s1 s2 s3 : state store) (root : string),
    env s0 !! "bluegreen_root" = Some (VStr root) →
    init_bluegreen s0 = Ok tt s1 →
    swap_bluegreen s1 = Ok tt s2 →
    swap_bluegreen s2 = Ok tt s3 →
    points_to (world s3) (path_join root "live")
    = points_to (world s1) (path_join root "live")
    ∧ points_to (world s3) (path_join root "next")
      = points_to (world s1) (path_join root "next").

(** ** A scripted executor

    Replies that depend on the command only; used to run the seeding
    scenarios of the specification. *)

Record script := Script {
  on_local : string → reply;
  on_remote : rcmd → reply
}.

#[export] Instance script_executor : Executor script := {
  exec_local line w := (on_local w line, w);
  exec_remote _ _ c w := (on_remote w c, w)
}.

(** Local branch [main] at commit [abc123]; [porcelain] is what
    [git status] prints, [listing] what [git branch --contains] prints and
    [push_fails] whether the push is rejected.  The remote host has no
    repository yet. *)
Definition working_copy (porcelain listing : string) (push_fails : bool)
    : script :=
  Script
    (fun line =>
       if String.eqb line "git rev-parse HEAD" then Reply "abc123" false
       else if String.eqb line "git rev-parse --abbrev-ref HEAD"
       then Reply "main" false
       else if startswith "git branch --contains" line
       then Reply listing false
       else if startswith "git status" line then Reply porcelain false
       else if startswith "git push" line then Reply "" push_fails
       else Reply "" false)
    (fun c => match c with
              | TestE _ => Reply "" true
              | _ => Reply "" false
              end).

Definition connection : gmap string value :=
  <["user" := VStr "deploy"]>
    (<["host" := VStr "example.org"]>
       (<["port" := VStr "22"]> (<["warn_only" := VBool false]> ∅))).

(** ** Reading the log *)

Definition is_link (fs : store) (p : string) : Prop :=
  ∃ t, fs !! p = Some (Link t).

Definition is_remote (e : event) : bool :=
  match e with
  | ERemote _ _ _ => true
  | ELocal _ => false
  end.

Definition is_push (e : event) : bool :=
  match e with
  | ELocal line => startswith "git push" line
  | ERemote _ _ _ => false
  end.

Definition remote_calls (l : list event) : list event :=
  List.filter is_remote l.

Definition pushes (l : list event) : list event :=
  List.filter is_push l.

(** The scenario after [init_bluegreen], and after one [swap_bluegreen]. *)
Definition scenario_ready : state store :=
  final_state (init_bluegreen scenario).

Definition scenario_swapped : state store :=
  final_state (swap_bluegreen scenario_ready).

(** Seeding scenarios: a clean copy whose commit is not on the current
    branch, a clean copy whose push is rejected, the same with the
    force-push override set, and a clean copy whose push goes through. *)
Definition off_branch : state script :=
  State connection (working_copy "" "  feature" false) [].

Definition rejected : state script :=
  State connection (working_copy "" "* main" true) [].

Definition rejected_forced : state script :=
  State (<["gitric_force_push" := VBool true]> connection)
    (working_copy "" "* main" true) [].

Definition accepted : state script :=
  State connection (working_copy "" "* main" false) [].

(** The store after two links [a] and [b] are repointed at [X] and [Y]. *)
Definition repointed (fs : store) (a b X Y : string) : store :=
  <[b := Link Y]> (<[a := Link X]> fs).

Definition swap_keys : list string :=
  ["next_path"; "live_path"; "live_path_abs"; "next_path_abs"].

(** Where [ln -nsf t l] puts its link, if anywhere: it depends on the store
    only through which names are real directories. *)
Definition real_dir (fs : store) (p : string) : bool :=
  match fs !! p with
  | Some Dir => true
  | _ => false
  end.

Definition ln_dest (fs : store) (t l : string) : option string :=
  if real_dir fs l then
    if real_dir fs (l +:+ "/" +:+ basename t) then None
    else Some (l +:+ "/" +:+ basename t)
  else Some l.

Definition same_dirs (fs fs' : store) : Prop :=
  ∀ p, real_dir fs p = real_dir fs' p.

(** What [path_join root] puts in front of a relative name. *)
Definition slot_prefix (root : string) : string :=
  if String.eqb root "" || endswith_slash root then root else root +:+ "/".

(** Steps that, whatever their outcome, leave the dictionary as it was, or
    add no event of a given kind to the log. *)
Definition is_local (e : event) : bool :=
  match e with
  | ELocal _ => true
  | ERemote _ _ _ => false
  end.

Definition local_calls (l : list event) : list event :=
  List.filter is_local l.

Definition env_stable {W A} (m : M W A) : Prop :=
  ∀ s, env (final_state (m s)) = env s.

Definition log_stable {W A} (P : event → bool) (m : M W A) : Prop :=
  ∀ s, List.filter P (log (final_state (m s))) = List.filter P (log s).

(** The keys [init_bluegreen] assigns. *)
Definition layout_keys : list string :=
  ["green_path"; "blue_path"; "next_path_abs"; "live_path_abs"; "next_path";
   "live_path"; "virtualenv_path"; "pidfile"; "nginx_conf"; "color";
   "bluegreen_port"].

(** The line [_config] sends, and the directory [with cd(path)] makes
    current when entered from [here]. *)
Definition config_line : string := "config receive.denyCurrentBranch ignore".

Definition cd_target (here path : string) : string :=
  if negb (String.eqb here "") && negb (startswith "/" path)
     && negb (startswith "~" path)
  then here +:+ "/" +:+ path else path.

(** Steps after which the host still has everything it had. *)
Definition world_grows {A} (m : M store A) : Prop :=
  ∀ s, world s ⊆ world (final_state (m s)).

(** The keys [init_bluegreen] requires. *)
Definition init_keys : list string := ["bluegreen_root"; "bluegreen_ports"].

(** Further scenarios: the clean copy against a host that has the
    repository already, the blue/green scenario with an empty ports
    mapping, and a dirty copy with the override bound to [False]. *)
Definition reseeded : state script :=
  State connection
    (Script (on_local (working_copy "" "* main" false))
       (fun _ => Reply "" false)) [].

Definition unset_ports : state store :=
  State (<["bluegreen_ports" := VPorts ∅]> (env scenario)) ∅ [].

Definition overridden : state script :=
  State (<["gitric_allow_dirty" := VBool false]> connection)
    (working_copy "M api.py" "* main" false) [].

(** ** Where the store stands for the host

    The store compares names as written.  The host does the same for names
    that are absolute and normalised, made of characters the shell passes
    on unchanged, and that lie below real directories; the statements
    about where the links of the layout lead are made for such names. *)

(** Letters, digits, [.], [_] and [-]. *)
Definition plain (c : ascii) : bool :=
  let n := nat_of_ascii c in
  (Nat.leb 48 n && Nat.leb n 57) || (Nat.leb 65 n && Nat.leb n 90)
  || (Nat.leb 97 n && Nat.leb n 122)
  || Nat.eqb n 45 || Nat.eqb n 46 || Nat.eqb n 95.

(** The pieces of a name between its slashes; [cur] is the piece being
    read. *)
Fixpoint segments (cur p : string) : list string :=
  match p with
  | "" => [cur]
  | String c p' =>
      if Ascii.eqb c "/"%char then cur :: segments "" p'
      else segments (cur +:+ String c "") p'
  end.

Fixpoint all_plain (x : string) : bool :=
  match x with
  | "" => true
  | String c x' => plain c && all_plain x'
  end.

Definition component (x : string) : bool :=
  negb (String.eqb x "") && negb (String.eqb x ".")
  && negb (String.eqb x "..") && all_plain x.

(** An absolute, normalised name: a slash, then components separated by
    single slashes, none of them empty, [.] or [..]. *)
Definition canonical (p : string) : bool :=
  match p with
  | String c rest => Ascii.eqb c "/"%char && forallb component (segments "" rest)
  | "" => false
  end.

(** The directories above a name, outermost first; [seen] is the part of
    the name already read. *)
Fixpoint above (seen p : string) : list string :=
  match p with
  | "" => []
  | String c p' =>
      if Ascii.eqb c "/"%char
      then (if String.eqb seen "" then [] else [seen])
             ++ above (seen +:+ "/") p'
      else above (seen +:+ String c "") p'
  end.

Definition ancestors (p : string) : list string := above "" p.

Definition absent_or_dir (fs : store) (p : string) : bool :=
  match fs !! p with
  | None | Some Dir => true
  | _ => false
  end.

(** [p] is free, or a link whose text is one of the two slots of [root]. *)
Definition absent_or_slot (fs : store) (root p : string) : bool :=
  match fs !! p with
  | None => true
  | Some (Link t) =>
      String.eqb t (path_join root "blue")
      || String.eqb t (path_join root "green")
  | _ => false
  end.

(** A host on which the layout under [root] is absent, or is as this
    module makes it: [root] is canonical, the directories above it and
    the five directories of the layout are free names or directories, and
    [live] and [next] are free names or links to a slot. *)
Definition layout_site (fs : store) (root : string) : bool :=
  canonical root
  && forallb (absent_or_dir fs) (ancestors root ++ layout_dirs root)
  && absent_or_slot fs root (path_join root "live")
  && absent_or_slot fs root (path_join root "next").

(** A step that adds no push to the log. *)
Definition pushless {W A} (m : M W A) : Prop :=
  ∀ s a s', m s = Ok a s' → pushes (log s') = pushes (log s).

(** * Properties of the seeding functions *)

Section Seeder.
Context {W : Type} `{Executor W}.

Implicit Types (s : state W) (r : reply).

Lemma bind_ok {A B} (m : M W A) (k : A → M W B) s a s' :
  m s = Ok a s' → bind m k s = k a s'.
Proof. unfold bind. intros ->. reflexivity. Qed.

Lemma bind_err {A B} (m : M W A) (k : A → M W B) s f s' :
  m s = Err f s' → bind m k s = Err f s'.
Proof. unfold bind. intros ->. reflexivity. Qed.

Lemma bind_inv {A B} (m : M W A) (k : A → M W B) s b s2 :
  bind m k s = Ok b s2 → ∃ a s1, m s = Ok a s1 ∧ k a s1 = Ok b s2.
Proof.
  unfold bind. destruct (m s) as [a s1|f s1]; [eauto | discriminate].
Qed.

(** What one local command does to the state. *)
Lemma local_ok line capture s r w :
  exec_local line (world s) = (r, w) →
  failed r = false ∨ warn_only s = true →
  local line capture s
  = Ok (Reply (if capture then stdout r else "") (failed r))
       (State (env s) w (log s ++ [ELocal line])).
Proof.
  intros Hx Hf. unfold local. rewrite Hx.
  destruct Hf as [-> | ->]; [reflexivity |].
  rewrite andb_false_r. reflexivity.
Qed.

Lemma local_inv line capture s r' s' :
  local line capture s = Ok r' s' →
  ∃ r w, exec_local line (world s) = (r, w)
         ∧ (failed r = false ∨ warn_only s = true)
         ∧ r' = Reply (if capture then stdout r else "") (failed r)
         ∧ s' = State (env s) w (log s ++ [ELocal line]).
Proof.
  unfold local. destruct (exec_local line (world s)) as [r w] eqn:Hx.
  destruct (failed r) eqn:Hf, (warn_only s) eqn:Hw; simpl;
    intros Heq; inversion Heq; subst; exists r, w; rewrite ?Hf; eauto.
Qed.

Lemma remote_inv who quiet c s r s' :
  remote who quiet c s = Ok r s' →
  env s' = env s ∧ log s' = log s ++ [ERemote who (cwd s) c].
Proof.
  unfold remote. destruct (exec_remote who (cwd s) c (world s)) as [r0 w].
  destruct (failed r0 && negb (quiet || warn_only s));
    intros Heq; inversion Heq; subst; simpl; eauto.
Qed.

Lemma pushes_app l1 l2 : pushes (l1 ++ l2) = pushes l1 ++ pushes l2.
Proof. apply List.filter_app. Qed.

Lemma remote_calls_app l1 l2 :
  remote_calls (l1 ++ l2) = remote_calls l1 ++ remote_calls l2.
Proof. apply List.filter_app. Qed.

(** Leaving a [settings] block puts the dictionary back. *)
Lemma settings_restore (e : gmap string value) k v :
  match e !! k with
  | Some old => <[k:=old]> (<[k:=v]> e)
  | None => delete k (<[k:=v]> e)
  end = e.
Proof.
  destruct (e !! k) as [old|] eqn:Hk.
  - rewrite insert_insert_eq. by apply insert_id.
  - rewrite delete_insert_eq. by apply delete_id.
Qed.

(** *** How [git_seed] is made of its stages *)

Lemma git_seed_after_commit repo commit rb iu us su ru s c s3 :
  seed_commit repo commit iu us su s = Ok c s3 →
  git_seed repo commit rb iu us su ru s
  = (let! b := resolve_branch c rb in
     let! u := resolve_user ru su in
     let! pushed := push repo c b u in
     if failed pushed then abort (non_fast_forward_msg c) else ret tt) s3.
Proof.
  unfold seed_commit, git_seed, bind.
  destruct (git_is_dirty iu s) as [[] s1|]; simpl; try discriminate.
  destruct (git_init repo us su s1) as [[] s2|]; try discriminate.
  destruct (resolve_commit commit s2) as [c' s3'|]; try discriminate.
  intros [= -> ->]. reflexivity.
Qed.

Lemma git_seed_after_resolved repo commit rb iu us su ru s c b u s3 :
  seed_resolved repo commit rb iu us su ru s = Ok (c, b, u) s3 →
  git_seed repo commit rb iu us su ru s
  = (let! pushed := push repo c b u in
     if failed pushed then abort (non_fast_forward_msg c) else ret tt) s3.
Proof.
  unfold seed_resolved. intros Hr.
  apply bind_inv in Hr as (c' & s1 & Hc & Hr).
  rewrite (git_seed_after_commit _ _ rb _ _ _ ru _ _ _ Hc).
  apply bind_inv in Hr as (b' & s2 & Hb & Hr).
  apply bind_inv in Hr as (u' & s3' & Hu & Hr).
  inversion Hr; subst.
  rewrite (bind_ok _ _ _ _ _ Hb), (bind_ok _ _ _ _ _ Hu). reflexivity.
Qed.

(** The push itself: one local command in warn-only mode, after which the
    dictionary is as before. *)
Lemma push_runs repo c b u s h p r w :
  env s !! "host" = Some h →
  env s !! "port" = Some p →
  exec_local (push_line u (str h) (str p) repo c b (force_flag s)) (world s)
  = (r, w) →
  push repo c b u s
  = Ok (Reply "" (failed r))
       (State (env s) w
          (log s ++ [ELocal (push_line u (str h) (str p) repo c b
                               (force_flag s))])).
Proof.
  intros Hh Hp Hx.
  unfold push, settings, bind, env_has, env_get, local, warn_only, force_flag
    in *; simpl.
  rewrite lookup_insert_ne by done. rewrite Hh. simpl.
  rewrite lookup_insert_ne by done. rewrite Hp. simpl.
  rewrite lookup_insert_ne by done. rewrite Hx.
  rewrite lookup_insert_eq. simpl.
  rewrite andb_false_r. simpl.
  pose proof (settings_restore (env s) "warn_only" (VBool true)) as Hre.
  destruct (env s !! "warn_only"); rewrite Hre; reflexivity.
Qed.

(** *** Steps that issue no push *)

Lemma pushless_ret {A} (a : A) : pushless (W:=W) (ret a).
Proof. intros s a' s' [= _ <-]. reflexivity. Qed.

Lemma pushless_fail {A} f : pushless (W:=W) (@fail W A f).
Proof. intros s a s'. discriminate. Qed.

Lemma pushless_bind {A B} (m : M W A) (k : A → M W B) :
  pushless (W:=W) m → (∀ a, pushless (W:=W) (k a)) → pushless (W:=W) (bind m k).
Proof.
  intros Hm Hk s b s2 Hb.
  apply bind_inv in Hb as (a & s1 & H1 & H2).
  rewrite (Hk _ _ _ _ H2). eauto.
Qed.

Lemma pushless_env_has k : pushless (W:=W) (env_has k).
Proof. intros s a s' [= _ <-]. reflexivity. Qed.

Lemma pushless_env_get k : pushless (W:=W) (env_get k).
Proof.
  intros s a s'. unfold env_get. destruct (env s !! k); [|discriminate].
  intros [= _ <-]. reflexivity.
Qed.

Lemma pushless_local line capture :
  startswith "git push" line = false → pushless (W:=W) (local line capture).
Proof.
  intros Hl s a s' Hr.
  apply local_inv in Hr as (r & w & _ & _ & _ & ->). simpl.
  rewrite pushes_app. unfold pushes at 2.
  cbn [List.filter is_push]. rewrite Hl. apply app_nil_r.
Qed.

Lemma pushless_remote who quiet c : pushless (W:=W) (remote who quiet c).
Proof.
  intros s a s' Hr. apply remote_inv in Hr as [_ ->].
  rewrite pushes_app. apply app_nil_r.
Qed.

Lemma pushless_settings {A} k v (body : M W A) :
  pushless (W:=W) body → pushless (W:=W) (settings k v body).
Proof.
  intros Hb s a s'. unfold settings.
  destruct (body _) as [a' s1|f s1] eqn:Hbody; [|discriminate].
  intros [= _ <-]. simpl. apply (Hb _ _ _ Hbody).
Qed.

Lemma pushless_cd {A} path (body : M W A) :
  pushless (W:=W) body → pushless (W:=W) (cd path body).
Proof. intros Hb s. unfold cd. apply pushless_settings, Hb. Qed.

Lemma pushless_git_is_dirty iu : pushless (W:=W) (git_is_dirty iu).
Proof.
  apply pushless_bind; [apply pushless_env_has |].
  intros []; [apply pushless_ret |].
  apply pushless_bind; [|intros; apply pushless_ret].
  apply pushless_local. by destruct iu.
Qed.

Lemma pushless_git_init repo us su : pushless (W:=W) (git_init repo us su).
Proof.
  assert (Hdo : ∀ q c, pushless (W:=W) (_do us su q c)).
  { intros q c. unfold _do. destruct us; apply pushless_remote. }
  assert (Hconf : pushless
    (do! _do us su false (Git "config receive.denyCurrentBranch ignore") in
     ret tt)).
  { apply pushless_bind; [apply Hdo | intros; apply pushless_ret]. }
  unfold git_init. apply pushless_bind.
  - apply pushless_bind; [apply pushless_remote | intros; apply pushless_ret].
  - intros []; [exact Hconf |].
    apply pushless_bind; [apply Hdo |]. intros _.
    apply pushless_cd, pushless_bind; [apply Hdo | intros; exact Hconf].
Qed.

Lemma pushless_resolve_commit commit : pushless (W:=W) (resolve_commit commit).
Proof.
  unfold resolve_commit. destruct (given commit); [apply pushless_ret |].
  apply pushless_bind; [by apply pushless_local | intros; apply pushless_ret].
Qed.

Lemma pushless_git_current_branch_name : pushless (W:=W) git_current_branch_name.
Proof.
  apply pushless_bind; [by apply pushless_local | intros; apply pushless_ret].
Qed.

Lemma pushless_seed_commit repo commit iu us su :
  pushless (W:=W) (seed_commit repo commit iu us su).
Proof.
  unfold seed_commit.
  apply pushless_bind; [apply pushless_git_is_dirty |]. intros dirty.
  apply pushless_bind;
    [destruct dirty; [apply pushless_fail | apply pushless_ret] |].
  intros _. apply pushless_bind; [apply pushless_git_init |].
  intros _. apply pushless_resolve_commit.
Qed.

Lemma pushless_resolve_branch c rb : pushless (W:=W) (resolve_branch c rb).
Proof.
  unfold resolve_branch. destruct (given rb); [apply pushless_ret |].
  apply pushless_bind; [apply pushless_git_current_branch_name |].
  intros b. apply pushless_bind; [by apply pushless_local |].
  intros listing.
  destruct (negb _); [apply pushless_fail | apply pushless_ret].
Qed.

Lemma pushless_resolve_user ru su : pushless (W:=W) (resolve_user ru su).
Proof.
  unfold resolve_user. destruct (given ru); [apply pushless_ret |].
  destruct (given su); [apply pushless_ret |].
  apply pushless_bind; [apply pushless_env_get | intros; apply pushless_ret].
Qed.

Lemma pushless_seed_resolved repo commit rb iu us su ru :
  pushless (W:=W) (seed_resolved repo commit rb iu us su ru).
Proof.
  unfold seed_resolved.
  apply pushless_bind; [apply pushless_seed_commit |]. intros c.
  apply pushless_bind; [apply pushless_resolve_branch |]. intros b.
  apply pushless_bind; [apply pushless_resolve_user |]. intros u.
  apply pushless_ret.
Qed.

Lemma resolve_user_inv ru su s u s' :
  resolve_user ru su s = Ok u s' →
  s' = s
  ∧ u = match given ru with
        | Some x => x
        | None =>
            match given su with
            | Some x => x
            | None => match env s !! "user" with
                      | Some v => str v
                      | None => ""
                      end
            end
        end.
Proof.
  unfold resolve_user, bind, env_get, ret.
  destruct (given ru); [by intros [= -> ->] |].
  destruct (given su); [by intros [= -> ->] |].
  destruct (env s !! "user"); [by intros [= -> ->] | discriminate].
Qed.

Lemma push_line_is_push u h p repo c b f :
  startswith "git push" (push_line u h p repo c b f) = true.
Proof. reflexivity. Qed.

Lemma contains_app_r sub a b :
  contains sub b = true → contains sub (a +:+ b) = true.
Proof.
  intros Hb. induction a as [|x a IH]; [exact Hb |].
  change (String x a +:+ b) with (String x (a +:+ b)).
  cbn [contains]. rewrite IH. apply orb_true_r.
Qed.

(** *** The claims about [git_is_dirty] and [git_seed] *)

(** C6. With the allow-dirty override in [env], [git_is_dirty] answers
    false without asking git.  Without it, it runs
    [git status --porcelain] (with [--untracked-files=no] when untracked
    files are to be ignored) and answers true exactly when the output is
    not empty. *)
Theorem git_is_dirty_spec (ignore_untracked_files : bool) s :
  (is_Some (env s !! "gitric_allow_dirty") →
     git_is_dirty ignore_untracked_files s = Ok false s)
  ∧ (env s !! "gitric_allow_dirty" = None →
     ∀ r w,
       exec_local (status_line ignore_untracked_files) (world s) = (r, w) →
       failed r = false ∨ warn_only s = true →
       ∃ dirty,
         git_is_dirty ignore_untracked_files s
         = Ok dirty (State (env s) w
                       (log s ++ [ELocal (status_line ignore_untracked_files)]))
         ∧ (dirty = true ↔ stdout r ≠ ""))
  ∧ status_line true = "git status --untracked-files=no --porcelain"
  ∧ status_line false = "git status  --porcelain".
Proof.
  repeat split; try reflexivity.
  - intros Hset. unfold git_is_dirty, bind, env_has.
    rewrite bool_decide_eq_true_2 by done. reflexivity.
  - intros Hunset r w Hx Hf.
    exists (negb (String.eqb (stdout r) "")). split.
    + unfold git_is_dirty, bind, env_has. rewrite Hunset.
      rewrite bool_decide_eq_false_2 by (intros [? ?]; discriminate).
      rewrite (local_ok _ true _ _ _ Hx Hf). reflexivity.
    + rewrite negb_true_iff. apply String.eqb_neq.
Qed.

(** After the [allow_dirty] task the check answers false without looking
    at the working copy. *)
Lemma allow_dirty_overrides iu s :
  (do! allow_dirty in git_is_dirty iu) s
  = Ok false (State (<["gitric_allow_dirty" := VBool true]> (env s))
                (world s) (log s)).
Proof.
  unfold allow_dirty, git_is_dirty, bind, set_env, env_has. simpl.
  by rewrite lookup_insert_eq.
Qed.

(** C2. When [git_is_dirty] answers true, [git_seed] aborts with the
    dirty-working-copy message in the state the check left: the only
    executor call made is the local [git status]; nothing was sent to the
    remote host and nothing was pushed. *)
Theorem seed_dirty_aborts repo commit rb iu us su ru s s' :
  git_is_dirty iu s = Ok true s' →
  git_seed repo commit rb iu us su ru s = Err (Aborted dirty_msg) s'
  ∧ log s' = log s ++ [ELocal (status_line iu)]
  ∧ remote_calls (log s') = remote_calls (log s)
  ∧ pushes (log s') = pushes (log s).
Proof.
  intros Hd. split.
  { unfold git_seed. rewrite (bind_ok _ _ _ _ _ Hd). reflexivity. }
  assert (Hlog : log s' = log s ++ [ELocal (status_line iu)]).
  { revert Hd. unfold git_is_dirty, bind, env_has.
    destruct (bool_decide _); [discriminate |].
    destruct (local _ _ _) as [r s1|] eqn:Hl; [|discriminate].
    apply local_inv in Hl as (r0 & w & _ & _ & _ & ->).
    intros [= _ <-]. reflexivity. }
  split; [exact Hlog |]. split.
  - rewrite Hlog, remote_calls_app. apply app_nil_r.
  - apply (pushless_git_is_dirty iu _ _ _ Hd).
Qed.

(** C3. Once the commit is resolved to [c]: if no remote branch is given,
    the branch is the current local branch [b], and when the listing of
    [git branch --contains c] lacks ["* b"] the seed aborts right after
    that query, with no push in the log; when the listing has it, the
    seed goes on with branch [b].  If a remote branch is given, the seed
    goes on from the very state in which the commit was resolved: what
    follows in the log is pushes only, so no containment query is made. *)
Theorem seed_branch_containment repo commit rb iu us su ru s c s3 :
  seed_commit repo commit iu us su s = Ok c s3 →
  (given rb = None →
     ∀ b s4 r w,
       git_current_branch_name s3 = Ok b s4 →
       exec_local (contains_line c) (world s4) = (r, w) →
       failed r = false ∨ warn_only s4 = true →
       let s5 := State (env s4) w (log s4 ++ [ELocal (contains_line c)]) in
       (contains ("* " +:+ b) (stdout r) = false →
          git_seed repo commit rb iu us su ru s
          = Err (Aborted (not_in_branch_msg c b)) s5
          ∧ pushes (log s5) = pushes (log s))
       ∧ (contains ("* " +:+ b) (stdout r) = true →
          git_seed repo commit rb iu us su ru s
          = (let! u := resolve_user ru su in
             let! pushed := push repo c b u in
             if failed pushed then abort (non_fast_forward_msg c)
             else ret tt) s5))
  ∧ (∀ b, given rb = Some b →
       git_seed repo commit rb iu us su ru s
       = (let! u := resolve_user ru su in
          let! pushed := push repo c b u in
          if failed pushed then abort (non_fast_forward_msg c)
          else ret tt) s3
       ∧ ∃ tail,
           log (final_state (git_seed repo commit rb iu us su ru s))
           = log s3 ++ tail
           ∧ Forall (λ e, is_push e = true) tail).
Proof.
  intros Hc. pose proof (git_seed_after_commit _ _ rb _ _ _ ru _ _ _ Hc) as Hs.
  split.
  - intros Hrb b s4 r w Hb Hx Hf s5.
    pose proof (local_ok _ true _ _ _ Hx Hf) as Hl.
    assert (Hcommon : ∀ (k : string → M W unit),
      bind (resolve_branch c rb) k s3
      = (if negb (contains ("* " +:+ b) (stdout r))
         then Err (Aborted (not_in_branch_msg c b)) s5 else k b s5)).
    { intros k. unfold resolve_branch. rewrite Hrb.
      unfold bind at 1 2. rewrite Hb. unfold bind. rewrite Hl. simpl.
      destruct (contains _ _); reflexivity. }
    split; intros Hin; rewrite Hs, Hcommon, Hin; simpl.
    + split; [reflexivity |].
      rewrite pushes_app. unfold pushes at 2. simpl. rewrite app_nil_r.
      rewrite <- (pushless_seed_commit _ _ _ _ _ _ _ _ Hc).
      apply (pushless_git_current_branch_name _ _ _ Hb).
    + reflexivity.
  - intros b Hrb.
    assert (Heq : git_seed repo commit rb iu us su ru s
      = (let! u := resolve_user ru su in
         let! pushed := push repo c b u in
         if failed pushed then abort (non_fast_forward_msg c)
         else ret tt) s3).
    { rewrite Hs. unfold resolve_branch. rewrite Hrb. reflexivity. }
    split; [exact Heq |]. rewrite Heq. clear Heq Hs.
    unfold bind at 1.
    destruct (resolve_user ru su s3) as [u s3'|f s3'] eqn:Hu.
    + apply resolve_user_inv in Hu as [-> _].
      unfold push, settings, bind, env_has, env_get, local. simpl.
      rewrite !lookup_insert_ne by done.
      destruct (env s3 !! "host") as [h|]; simpl;
        [|exists []; by rewrite app_nil_r].
      rewrite lookup_insert_ne by done.
      destruct (env s3 !! "port") as [p|]; simpl;
        [|exists []; by rewrite app_nil_r].
      destruct (exec_local _ _) as [r w]. unfold warn_only. simpl.
      rewrite lookup_insert_eq. simpl. rewrite andb_false_r. simpl.
      eexists [_]. split.
      * destruct (failed r); reflexivity.
      * by repeat constructor.
    + exists []. split; [|constructor]. rewrite app_nil_r.
      revert Hu. unfold resolve_user, bind, env_get, ret.
      destruct (given ru); [discriminate |].
      destruct (given su); [discriminate |].
      destruct (env s3 !! "user"); [discriminate |].
      by intros [= _ <-].
Qed.

(** What a failed push leads to, whatever the force flag. *)
Lemma seed_push_failed repo commit rb iu us su ru s c b u s3 h p r w :
  seed_resolved repo commit rb iu us su ru s = Ok (c, b, u) s3 →
  env s3 !! "host" = Some h →
  env s3 !! "port" = Some p →
  exec_local (push_line u (str h) (str p) repo c b (force_flag s3)) (world s3)
  = (r, w) →
  git_seed repo commit rb iu us su ru s
  = (if failed r then Err (Aborted (non_fast_forward_msg c)) else Ok tt)
      (State (env s3) w
         (log s3 ++ [ELocal (push_line u (str h) (str p) repo c b
                               (force_flag s3))])).
Proof.
  intros Hr Hh Hp Hx.
  rewrite (git_seed_after_resolved _ _ _ _ _ _ _ _ _ _ _ _ Hr).
  rewrite (bind_ok _ _ _ _ _ (push_runs _ _ _ _ _ _ _ _ _ Hh Hp Hx)).
  simpl. destruct (failed r); reflexivity.
Qed.

(** C4. A seed that reaches the push without the force-push override, and
    whose push comes back failed, aborts with the non-fast-forward
    message, which names [force_push]; the state it stops in is the one
    right after that push, the only push in the log of this seed. *)
Theorem seed_push_rejected repo commit rb iu us su ru s c b u s3 h p r w :
  seed_resolved repo commit rb iu us su ru s = Ok (c, b, u) s3 →
  env s3 !! "gitric_force_push" = None →
  env s3 !! "host" = Some h →
  env s3 !! "port" = Some p →
  exec_local (push_line u (str h) (str p) repo c b "") (world s3) = (r, w) →
  failed r = true →
  let line := push_line u (str h) (str p) repo c b "" in
  git_seed repo commit rb iu us su ru s
  = Err (Aborted (non_fast_forward_msg c))
      (State (env s3) w (log s3 ++ [ELocal line]))
  ∧ contains "gitric.api.force_push" (non_fast_forward_msg c) = true
  ∧ pushes (log s3 ++ [ELocal line]) = pushes (log s) ++ [ELocal line].
Proof.
  intros Hr Hforce Hh Hp Hx Hfail line.
  assert (Hflag : force_flag s3 = "").
  { unfold force_flag. rewrite Hforce.
    by rewrite bool_decide_eq_false_2 by (intros [? ?]; discriminate). }
  split; [|split].
  - rewrite <- Hflag in Hx.
    rewrite (seed_push_failed _ _ _ _ _ _ _ _ _ _ _ _ _ _ _ _ Hr Hh Hp Hx).
    rewrite Hfail, Hflag. reflexivity.
  - unfold non_fast_forward_msg. by apply contains_app_r.
  - rewrite pushes_app, (pushless_seed_resolved _ _ _ _ _ _ _ _ _ _ Hr).
    reflexivity.
Qed.

(** C10. A seed that reaches the push and whose push comes back failed
    aborts with the non-fast-forward message whether or not the
    force-push override is in [env]: line 104 looks at the push only. *)
Theorem seed_push_failure_ignores_force
    repo commit rb iu us su ru s c b u s3 h p r w :
  seed_resolved repo commit rb iu us su ru s = Ok (c, b, u) s3 →
  env s3 !! "host" = Some h →
  env s3 !! "port" = Some p →
  exec_local (push_line u (str h) (str p) repo c b (force_flag s3)) (world s3)
  = (r, w) →
  failed r = true →
  git_seed repo commit rb iu us su ru s
  = Err (Aborted (non_fast_forward_msg c))
      (State (env s3) w
         (log s3 ++ [ELocal (push_line u (str h) (str p) repo c b
                               (force_flag s3))])).
Proof.
  intros Hr Hh Hp Hx Hfail.
  rewrite (seed_push_failed _ _ _ _ _ _ _ _ _ _ _ _ _ _ _ _ Hr Hh Hp Hx).
  rewrite Hfail. reflexivity.
Qed.

(** C8. A seed that reaches the push issues exactly one more local
    command, the push line
    [git push git+ssh://user@host:port<repo> commit:refs/heads/branch],
    followed by a blank and [-f] exactly when the force-push override is
    in [env]; the user is [remote_git_user] if given, else [sudo_user] if
    given, else [env.user]. *)
Theorem seed_push_line repo commit rb iu us su ru s c b u s3 h p :
  seed_resolved repo commit rb iu us su ru s = Ok (c, b, u) s3 →
  env s3 !! "host" = Some h →
  env s3 !! "port" = Some p →
  u = match given ru with
      | Some x => x
      | None =>
          match given su with
          | Some x => x
          | None => match env s3 !! "user" with
                    | Some v => str v
                    | None => ""
                    end
          end
      end
  ∧ log (final_state (git_seed repo commit rb iu us su ru s))
    = log s3 ++
      [ELocal ("git push git+ssh://" +:+ u +:+ "@" +:+ str h +:+ ":" +:+
               str p +:+ repo +:+ " " +:+ c +:+ ":refs/heads/" +:+ b +:+
               " " +:+
               (if bool_decide (is_Some (env s3 !! "gitric_force_push"))
                then "-f" else ""))].
Proof.
  intros Hr Hh Hp. split.
  - unfold seed_resolved in Hr.
    apply bind_inv in Hr as (c' & s1 & _ & Hr).
    apply bind_inv in Hr as (b' & s2 & _ & Hr).
    apply bind_inv in Hr as (u' & s3' & Hu & [= _ _ -> ->]).
    by apply resolve_user_inv in Hu as [-> ->].
  - destruct (exec_local
      (push_line u (str h) (str p) repo c b (force_flag s3)) (world s3))
      as [r w] eqn:Hx.
    rewrite (seed_push_failed _ _ _ _ _ _ _ _ _ _ _ _ _ _ _ _ Hr Hh Hp Hx).
    destruct (failed r); reflexivity.
Qed.

End Seeder.

(** * Properties of the blue/green functions *)

(** ** Path names *)

Lemma string_app_cons x (a b : string) : String x a +:+ b = String x (a +:+ b).
Proof. reflexivity. Qed.

Lemma string_app_assoc (a b c : string) : (a +:+ b) +:+ c = a +:+ b +:+ c.
Proof.
  induction a as [|x a IH]; [done |]. rewrite !string_app_cons. by f_equal.
Qed.

Lemma string_app_length (a b : string) :
  String.length (a +:+ b) = String.length a + String.length b.
Proof.
  induction a as [|x a IH]; [done |]. rewrite string_app_cons. simpl.
  by f_equal.
Qed.

Lemma path_join_prefix root x :
  startswith "/" x = false → path_join root x = slot_prefix root +:+ x.
Proof.
  intros Hx. unfold path_join, slot_prefix. rewrite Hx.
  destruct (_ || _); [done | by rewrite string_app_assoc].
Qed.

Lemma slot_prefix_shape root :
  slot_prefix root = "" ∨ endswith_slash (slot_prefix root) = true.
Proof.
  unfold slot_prefix. destruct (String.eqb_spec root "") as [-> | Hne]; simpl.
  - by left.
  - destruct (endswith_slash root) eqn:He; [by right |]. right.
    clear Hne He. induction root as [|c r IH]; [done |].
    destruct r; [done |]. exact IH.
Qed.

Lemma contains_slash_app p x :
  endswith_slash p = true → contains "/" (p +:+ x) = true.
Proof.
  induction p as [|c r IH]; [done |]. intros He.
  destruct r as [|c' r'].
  - simpl in He. apply Ascii.eqb_eq in He as ->. reflexivity.
  - change (String c (String c' r') +:+ x)
      with (String c (String c' r' +:+ x)).
    cbn [contains]. rewrite (IH He). apply orb_true_r.
Qed.

Lemma basename_plain x : contains "/" x = false → basename x = x.
Proof.
  induction x as [|c r IH]; [done |]. cbn [contains basename].
  intros [Hc Hr]%orb_false_elim. rewrite Hr.
  cbn [startswith] in Hc. rewrite andb_true_r in Hc.
  rewrite Ascii.eqb_sym in Hc. by rewrite Hc.
Qed.

Lemma basename_app p x :
  contains "/" x = false →
  p = "" ∨ endswith_slash p = true →
  basename (p +:+ x) = x.
Proof.
  intros Hx [-> | He]; [by apply basename_plain |].
  induction p as [|c r IH]; [done |].
  change (String c r +:+ x) with (String c (r +:+ x)). cbn [basename].
  destruct r as [|c' r'].
  - simpl in He. apply Ascii.eqb_eq in He as ->.
    change ("" +:+ x) with x. rewrite Hx. reflexivity.
  - assert (He' : endswith_slash (String c' r') = true) by exact He.
    rewrite (contains_slash_app _ x He'). exact (IH He').
Qed.

Lemma basename_slot root x :
  startswith "/" x = false → contains "/" x = false →
  basename (path_join root x) = x.
Proof.
  intros H1 H2. rewrite (path_join_prefix _ _ H1).
  apply basename_app; [done | apply slot_prefix_shape].
Qed.

(** The seven names of a layout are distinct. *)
Lemma slot_names_ne root (x y : string) :
  x ≠ y → slot_prefix root +:+ x ≠ slot_prefix root +:+ y.
Proof. intros Hne Heq. by apply (inj (String.app _)) in Heq. Qed.

Lemma root_not_slot root (x : string) :
  x ≠ "" → root ≠ slot_prefix root +:+ x.
Proof.
  intros Hx Heq. apply (f_equal String.length) in Heq.
  rewrite string_app_length in Heq.
  assert (0 < String.length x) by (destruct x; [done | simpl; lia]).
  unfold slot_prefix in Heq. destruct (_ || _).
  - lia.
  - rewrite string_app_length in Heq. lia.
Qed.

Ltac slot_ne :=
  rewrite ?path_join_prefix by reflexivity;
  rewrite ?string_app_assoc;
  first [ apply slot_names_ne; discriminate
        | apply root_not_slot; discriminate
        | apply not_eq_sym, root_not_slot; discriminate ].

Lemma layout_names_distinct root :
  let live := path_join root "live" in
  let next := path_join root "next" in
  live ≠ next
  ∧ Forall (λ d, d ≠ live ∧ d ≠ next) (layout_dirs root)
  ∧ NoDup (layout_dirs root).
Proof.
  intros live next. subst live next. split; [slot_ne |]. split.
  - unfold layout_dirs. repeat constructor; slot_ne.
  - unfold layout_dirs. repeat constructor;
      rewrite ?not_elem_of_cons; repeat split;
      try apply not_elem_of_nil; slot_ne.
Qed.

(** ** The primitives on the host *)

Lemma bind_fails {W A B} (m : M W A) (k : A → M W B) s :
  (∃ f s', m s = Err f s') → ∃ f s', bind m k s = Err f s'.
Proof. intros (f & s' & Hm). exists f, s'. unfold bind. by rewrite Hm. Qed.

Lemma bind_ok_fails {W A B} (m : M W A) (k : A → M W B) s a s1 :
  m s = Ok a s1 → (∃ f s', k a s1 = Err f s') → ∃ f s', bind m k s = Err f s'.
Proof. intros Hm Hk. unfold bind. by rewrite Hm. Qed.

Lemma bind_ok_ok {W A B} (m : M W A) (k : A → M W B) s a s1 b :
  m s = Ok a s1 →
  (∃ l, k a s1 = Ok b l) → ∃ l, bind m k s = Ok b l.
Proof. intros Hm Hk. unfold bind. by rewrite Hm. Qed.

Section Host.
Implicit Types (s : state store) (fs : store) (e : gmap string value).

Lemma warn_only_env e e' fs fs' l l' :
  e !! "warn_only" = e' !! "warn_only" →
  warn_only (State e fs l) = warn_only (State e' fs' l').
Proof. unfold warn_only. simpl. by intros ->. Qed.

Lemma env_get_ok k s v : env s !! k = Some v → env_get k s = Ok v s.
Proof. unfold env_get. by intros ->. Qed.

Lemma env_fmt_ok k s v : env s !! k = Some v → env_fmt k s = Ok (str v) s.
Proof. unfold env_fmt. by intros ->. Qed.

Lemma env_path_ok k s x : env s !! k = Some (VStr x) → env_path k s = Ok x s.
Proof. intros Hk. unfold env_path, bind. by rewrite (env_get_ok _ _ _ Hk). Qed.

Lemma require_ok keys s :
  Forall (λ k, provided (env s) k = true) keys → require keys s = Ok tt s.
Proof.
  intros Hall. unfold require.
  replace (filter (λ k, provided (env s) k = false) keys) with (@nil string);
    [done |].
  symmetry. induction Hall as [|k ks Hk _ IH]; [done |].
  rewrite filter_cons_False by (rewrite Hk; done). exact IH.
Qed.

Lemma require_inv keys s s' :
  require keys s = Ok tt s' →
  s' = s ∧ Forall (λ k, provided (env s) k = true) keys.
Proof.
  unfold require.
  destruct (filter _ keys) as [|k0 ks] eqn:Hf; [|discriminate].
  intros [= <-]. split; [done |].
  apply Forall_forall. intros k Hk.
  destruct (provided (env s) k) eqn:Hp; [done |].
  assert (k ∈ filter (λ k, provided (env s) k = false) keys) as Hin
    by (apply list_elem_of_filter; done).
  rewrite Hf in Hin. by apply not_elem_of_nil in Hin.
Qed.

Lemma run_ok c s out fs' :
  guard (warn_only s) (host_remote c (world s)) = Some (out, fs') →
  run c s = Ok out (State (env s) fs' (log s ++ [ERemote None (cwd s) c])).
Proof.
  unfold run, bind, remote, guard. simpl.
  destruct (host_remote c (world s)) as [r w]. simpl.
  destruct (failed r && negb (warn_only s)); [discriminate |].
  by intros [= <- <-].
Qed.

Lemma run_fails c s :
  guard (warn_only s) (host_remote c (world s)) = None →
  ∃ f s', run c s = Err f s'.
Proof.
  unfold run, bind, remote, guard. simpl.
  destruct (host_remote c (world s)) as [r w]. simpl.
  destruct (failed r && negb (warn_only s)); [eauto | discriminate].
Qed.

Lemma run_inv c s out s' :
  run c s = Ok out s' →
  guard (warn_only s) (host_remote c (world s)) = Some (out, world s')
  ∧ env s' = env s.
Proof.
  unfold run, bind, remote, guard. simpl.
  destruct (host_remote c (world s)) as [r w]. simpl.
  destruct (failed r && negb (warn_only s)); [discriminate |].
  by intros [= <- <-].
Qed.

Lemma exists_host p s :
  exists_ p false s
  = Ok (test_e (world s) p)
      (State (env s) (world s) (log s ++ [ERemote None (cwd s) (TestE p)])).
Proof.
  unfold exists_, bind, remote. simpl.
  rewrite andb_false_r. unfold ret. simpl. by rewrite negb_involutive.
Qed.

Lemma run_ok_at c e fs l w out fs' :
  warn_only (State e fs l) = w →
  guard w (host_remote c fs) = Some (out, fs') →
  run c (State e fs l)
  = Ok out (State e fs' (l ++ [ERemote None (cwd (State e fs l)) c])).
Proof. intros <- Hg. by apply run_ok. Qed.

Lemma run_fails_at c e fs l w :
  warn_only (State e fs l) = w →
  guard w (host_remote c fs) = None →
  ∃ f s', run c (State e fs l) = Err f s'.
Proof. intros <- Hg. by apply run_fails. Qed.

(** Lines 150-153, once [exists] has answered. *)
Lemma link_step k1 k2 e fs l w v1 v2 (there : bool) :
  e !! k1 = Some v1 →
  e !! k2 = Some v2 →
  warn_only (State e fs l) = w →
  match (if there then Some fs
         else match guard w (host_remote (LnS (str v1) (str v2)) fs) with
              | Some (_, fs') => Some fs'
              | None => None
              end) with
  | Some fs' =>
      ∃ l', (if there then ret tt
             else let! t := env_fmt k1 in
                  let! ln := env_fmt k2 in
                  do! run (LnS t ln) in ret tt) (State e fs l)
            = Ok tt (State e fs' l')
  | None =>
      ∃ f s', (if there then ret tt
               else let! t := env_fmt k1 in
                    let! ln := env_fmt k2 in
                    do! run (LnS t ln) in ret tt) (State e fs l)
              = Err f s'
  end.
Proof.
  intros H1 H2 Hw. destruct there; [by eexists |].
  destruct (guard _ _) as [[out fs']|] eqn:Hg.
  - eexists.
    rewrite (bind_ok _ _ _ _ _ (env_fmt_ok k1 (State e fs l) _ H1)).
    rewrite (bind_ok _ _ _ _ _ (env_fmt_ok k2 (State e fs l) _ H2)).
    rewrite (bind_ok _ _ _ _ _ (run_ok_at _ _ _ _ _ _ _ Hw Hg)).
    reflexivity.
  - rewrite (bind_ok _ _ _ _ _ (env_fmt_ok k1 (State e fs l) _ H1)).
    rewrite (bind_ok _ _ _ _ _ (env_fmt_ok k2 (State e fs l) _ H2)).
    apply bind_fails. by eapply run_fails_at.
Qed.

Lemma readlink_store w p fs out fs' :
  guard w (host_remote (ReadlinkF p) fs) = Some (out, fs') →
  fs' = fs ∧ (realpath fs p = Some out ∨ (realpath fs p = None ∧ out = "")).
Proof.
  unfold guard, host_remote.
  destruct (realpath fs p) as [q|]; simpl.
  - intros [= <- <-]. auto.
  - destruct (negb w); [discriminate |]. intros [= <- <-]. auto.
Qed.

Lemma port_of_ok color s m :
  env s !! "bluegreen_ports" = Some (VPorts m) →
  env s !! "color" = Some (VStr color) →
  port_of s = Ok (port_value m color) s.
Proof.
  intros Hp Hc. unfold port_of.
  rewrite (bind_ok _ _ _ _ _ (env_get_ok _ _ _ Hp)).
  by rewrite (bind_ok _ _ _ _ _ (env_get_ok _ _ _ Hc)).
Qed.

End Host.

Ltac env_lookup :=
  cbn [env]; unfold paths_env, derived_env;
  repeat (rewrite lookup_insert_ne by done);
  first [ apply lookup_insert_eq | eassumption ].

Ltac warn_same :=
  unfold warn_only; cbn [env]; unfold paths_env, derived_env;
  repeat (rewrite lookup_insert_ne by done); reflexivity.

Ltac pure_step H :=
  erewrite bind_ok in H by
    first [ apply env_path_ok; env_lookup
          | apply env_fmt_ok; env_lookup
          | apply env_get_ok; env_lookup
          | apply port_of_ok; env_lookup
          | apply exists_host
          | reflexivity ];
  cbv beta in H; cbn [env world log] in H.

Lemma init_bluegreen_pure (s : state store) root ports :
  env s !! "bluegreen_root" = Some (VStr root) →
  env s !! "bluegreen_ports" = Some ports →
  provided (env s) "bluegreen_ports" = true →
  match init_pure root ports (warn_only s) (env s) (world s) with
  | Some (e', fs') => ∃ l, init_bluegreen s = Ok tt (State e' fs' l)
  | None => ∃ f s', init_bluegreen s = Err f s'
  end.
Proof.
  intros Hroot Hports Hne.
  remember (init_bluegreen s) as P eqn:HP. unfold init_bluegreen in HP.
  assert (Hreq : require ["bluegreen_root"; "bluegreen_ports"] s = Ok tt s).
  { apply require_ok. repeat constructor; [| exact Hne].
    unfold provided. by rewrite Hroot. }
  rewrite (bind_ok _ _ _ _ _ Hreq) in HP.
  do 11 pure_step HP. cbn [str] in HP. fold (layout_dirs root) in HP.
  unfold init_pure, link_unless_there.
  (* mkdir -p *)
  destruct (guard _ (host_remote (MkdirP _) _)) as [[o1 fs1]|] eqn:G1;
    [| subst P; apply bind_fails; eapply run_fails_at; [warn_same | exact G1]].
  erewrite bind_ok in HP by (eapply run_ok_at; [warn_same | exact G1]).
  cbv beta in HP; cbn [env world log] in HP.
  (* live *)
  do 2 pure_step HP. cbn [str] in HP.
  match type of HP with
  | _ = bind _ _ (State ?e ?fs ?l) =>
      pose proof (link_step "blue_path" "live_path_abs" e fs l (warn_only s)
                    (VStr (path_join root "blue")) (VStr (path_join root "live"))
                    (test_e fs1 (path_join root "live"))
                    ltac:(env_lookup) ltac:(env_lookup) ltac:(warn_same)) as HL
  end.
  cbn [str] in HL.
  destruct (if test_e fs1 (path_join root "live") then _ else _)
    as [fs2|] eqn:G2;
    [| subst P; apply bind_fails; exact HL].
  destruct HL as [l2 HL]. rewrite (bind_ok _ _ _ _ _ HL) in HP. clear HL.
  (* next *)
  do 2 pure_step HP. cbn [str] in HP.
  match type of HP with
  | _ = bind _ _ (State ?e ?fs ?l) =>
      pose proof (link_step "green_path" "next_path_abs" e fs l (warn_only s)
                    (VStr (path_join root "green")) (VStr (path_join root "next"))
                    (test_e fs2 (path_join root "next"))
                    ltac:(env_lookup) ltac:(env_lookup) ltac:(warn_same)) as HL
  end.
  cbn [str] in HL.
  destruct (if test_e fs2 (path_join root "next") then _ else _)
    as [fs3|] eqn:G3;
    [| subst P; apply bind_fails; exact HL].
  destruct HL as [l3 HL]. rewrite (bind_ok _ _ _ _ _ HL) in HP. clear HL.
  (* readlink -f *)
  pure_step HP. cbn [str] in HP.
  destruct (guard _ (host_remote (ReadlinkF (path_join root "next")) _))
    as [[next_path fs3']|] eqn:G4;
    [| subst P; apply bind_fails; eapply run_fails_at; [warn_same | exact G4]].
  erewrite bind_ok in HP by (eapply run_ok_at; [warn_same | exact G4]).
  cbv beta in HP; cbn [env world log] in HP.
  apply readlink_store in G4 as G4'. destruct G4' as [-> _].
  do 2 pure_step HP. cbn [str] in HP.
  destruct (guard _ (host_remote (ReadlinkF (path_join root "live")) _))
    as [[live_path fs3']|] eqn:G5;
    [| subst P; apply bind_fails; eapply run_fails_at; [warn_same | exact G5]].
  erewrite bind_ok in HP by (eapply run_ok_at; [warn_same | exact G5]).
  cbv beta in HP; cbn [env world log] in HP.
  apply readlink_store in G5 as G5'. destruct G5' as [-> _].
  do 9 pure_step HP.
  destruct ports as [x|b|n| |m];
    try (subst P; apply bind_fails; eexists _, _; unfold port_of;
         erewrite bind_ok by (apply env_get_ok; env_lookup); reflexivity).
  pure_step HP.
  subst P. eexists. reflexivity.
Qed.

(** [init_bluegreen] succeeds exactly as [init_pure] says. *)
Lemma init_ok_inv (s s' : state store) :
  init_bluegreen s = Ok tt s' →
  ∃ root ports,
    env s !! "bluegreen_root" = Some (VStr root)
    ∧ env s !! "bluegreen_ports" = Some ports
    ∧ provided (env s) "bluegreen_ports" = true
    ∧ init_pure root ports (warn_only s) (env s) (world s)
      = Some (env s', world s').
Proof.
  intros Hok. pose proof Hok as Hinv. unfold init_bluegreen in Hinv.
  apply bind_inv in Hinv as ([] & s1 & Hreq & Hinv).
  apply require_inv in Hreq as [Hs1 Hreq]. subst s1.
  apply Forall_cons in Hreq as [_ Hreq]. apply Forall_cons in Hreq as [Hp _].
  apply bind_inv in Hinv as (root & s1 & Hroot & _).
  unfold env_path in Hroot. apply bind_inv in Hroot as (v & s2 & Hv & Hs).
  unfold env_get in Hv. destruct (env s !! "bluegreen_root") as [v'|] eqn:Hr;
    [|discriminate].
  injection Hv as Ev Es. subst v s2.
  destruct v' as [x| | | |]; try discriminate.
  injection Hs as Ex _. subst x.
  destruct (env s !! "bluegreen_ports") as [ports|] eqn:Hports;
    [| unfold provided in Hp; by rewrite Hports in Hp].
  exists root, ports. repeat split; [done |].
  pose proof (init_bluegreen_pure s root ports Hr Hports Hp) as Hpure.
  destruct (init_pure _ _ _ _ _) as [[e' fs']|].
  - destruct Hpure as [l Hl]. rewrite Hl in Hok. by injection Hok as <-.
  - destruct Hpure as (f & s0 & Hf). rewrite Hf in Hok. discriminate.
Qed.

Lemma init_ok_intro (s : state store) root ports e' fs' :
  env s !! "bluegreen_root" = Some (VStr root) →
  env s !! "bluegreen_ports" = Some ports →
  provided (env s) "bluegreen_ports" = true →
  init_pure root ports (warn_only s) (env s) (world s) = Some (e', fs') →
  ∃ l, init_bluegreen s = Ok tt (State e' fs' l).
Proof.
  intros Hr Hports Hp Hpure.
  pose proof (init_bluegreen_pure s root ports Hr Hports Hp) as H.
  by rewrite Hpure in H.
Qed.

(** ** Following links in the store *)

Section Store.
Implicit Types (fs : store) (p q t : string).

Lemma follow_S n fs p :
  follow (S n) fs p
  = match fs !! p with
    | Some (Link t) => follow n fs t
    | _ => Some p
    end.
Proof. reflexivity. Qed.

Lemma follow_link n fs p t :
  fs !! p = Some (Link t) → follow (S n) fs p = follow n fs t.
Proof. intros Hp. by rewrite follow_S, Hp. Qed.

Lemma follow_here n fs p :
  (∀ t, fs !! p ≠ Some (Link t)) → follow n fs p = Some p.
Proof.
  intros Hp. destruct n; simpl; destruct (fs !! p) as [[| |t]|] eqn:E;
    try done; by destruct (Hp t).
Qed.

Lemma follow_not_link n fs p q :
  follow n fs p = Some q → ∀ t, fs !! q ≠ Some (Link t).
Proof.
  revert p. induction n as [|n IH]; intros p; simpl;
    destruct (fs !! p) as [[| |t']|] eqn:E; intros Hq t;
    try (injection Hq as <-; rewrite E; discriminate); try discriminate.
  by eapply IH.
Qed.

Lemma follow_more n fs p q :
  follow n fs p = Some q → follow (S n) fs p = Some q.
Proof.
  revert p. induction n as [|n IH]; intros p Hq.
  - simpl in *. destruct (fs !! p) as [[| |t]|]; done.
  - rewrite follow_S in Hq. rewrite follow_S.
    destruct (fs !! p) as [[| |t]|]; try done. by apply IH.
Qed.

Lemma follow_weaken n fs fs' p q :
  fs ⊆ fs' → follow n fs p = Some q → is_Some (fs !! q) →
  follow n fs' p = Some q.
Proof.
  intros Hsub. revert p. induction n as [|n IH]; intros p; simpl;
    destruct (fs !! p) as [x|] eqn:E.
  - rewrite (lookup_weaken _ _ _ _ E Hsub). by destruct x.
  - intros [= <-] [? ?]. congruence.
  - rewrite (lookup_weaken _ _ _ _ E Hsub). destruct x; try done. apply IH.
  - intros [= <-] [? ?]. congruence.
Qed.

Lemma test_e_present fs p : test_e fs p = true → is_Some (fs !! p).
Proof.
  unfold test_e, realpath. destruct (fs !! p) as [x|] eqn:E; [eauto |].
  rewrite follow_here by (intros t; rewrite E; discriminate).
  rewrite E. intros Hd. by apply bool_decide_eq_true_1 in Hd.
Qed.

Lemma is_directory_test_e fs p : is_directory fs p = true → test_e fs p = true.
Proof.
  unfold is_directory, test_e. destruct (realpath fs p) as [q|]; [|done].
  by destruct (fs !! q) as [[]|].
Qed.

Lemma test_e_weaken fs fs' p :
  fs ⊆ fs' → test_e fs p = true → test_e fs' p = true.
Proof.
  intros Hsub. unfold test_e, realpath.
  destruct (follow _ fs p) as [q|] eqn:Hq; [|done].
  intros Hd%bool_decide_eq_true_1.
  rewrite (follow_weaken _ _ _ _ _ Hsub Hq Hd).
  destruct Hd as [x Hx]. rewrite (lookup_weaken _ _ _ _ Hx Hsub).
  by apply bool_decide_eq_true_2.
Qed.

Lemma is_directory_weaken fs fs' p :
  fs ⊆ fs' → is_directory fs p = true → is_directory fs' p = true.
Proof.
  intros Hsub. unfold is_directory, realpath.
  destruct (follow _ fs p) as [q|] eqn:Hq; [|done].
  destruct (fs !! q) as [[]|] eqn:Hd; try done. intros _.
  rewrite (follow_weaken _ _ _ _ _ Hsub Hq) by eauto.
  by rewrite (lookup_weaken _ _ _ _ Hd Hsub).
Qed.

Lemma is_directory_here fs p : fs !! p = Some Dir → is_directory fs p = true.
Proof.
  intros Hp. unfold is_directory, realpath.
  rewrite follow_here by (intros t; rewrite Hp; discriminate).
  by rewrite Hp.
Qed.

(** *** [mkdir -p] *)

Lemma mkdir_p1_sub fs b p : fs ⊆ (mkdir_p1 (fs, b) p).1.
Proof.
  unfold mkdir_p1. simpl. destruct (is_directory fs p); [done |].
  destruct (fs !! p) eqn:E; [done |]. by apply insert_subseteq.
Qed.

Lemma mkdir_p1_flag fs b p : (mkdir_p1 (fs, b) p).2 = false → b = false.
Proof.
  unfold mkdir_p1. simpl. destruct (is_directory fs p); [done |].
  by destruct (fs !! p).
Qed.

Lemma mkdir_p1_present fs b p : is_Some ((mkdir_p1 (fs, b) p).1 !! p).
Proof.
  unfold mkdir_p1. simpl. destruct (is_directory fs p) eqn:Hd.
  - by apply test_e_present, is_directory_test_e.
  - destruct (fs !! p) eqn:E; simpl; [eauto |].
    rewrite lookup_insert_eq. eauto.
Qed.

Lemma mkdir_p1_dir fs b p :
  (mkdir_p1 (fs, b) p).2 = false → is_directory (mkdir_p1 (fs, b) p).1 p = true.
Proof.
  unfold mkdir_p1. simpl. destruct (is_directory fs p) eqn:Hd; [done |].
  destruct (fs !! p) eqn:E; simpl; [done |]. intros _.
  apply is_directory_here, lookup_insert_eq.
Qed.

Lemma mkdir_p1_noop fs b p :
  is_Some (fs !! p) → (mkdir_p1 (fs, b) p).1 = fs.
Proof.
  intros [x Hx]. unfold mkdir_p1. simpl.
  destruct (is_directory fs p); [done |]. by rewrite Hx.
Qed.

Lemma mkdir_p1_dir_noop fs b p :
  is_directory fs p = true → mkdir_p1 (fs, b) p = (fs, b).
Proof. intros Hd. unfold mkdir_p1. simpl. by rewrite Hd. Qed.

Lemma mkdir_p_acc ps fs b fs1 b1 :
  foldl mkdir_p1 (fs, b) ps = (fs1, b1) →
  fs ⊆ fs1
  ∧ Forall (λ p, is_Some (fs1 !! p)) ps
  ∧ (b1 = false → b = false ∧ Forall (λ p, is_directory fs1 p = true) ps).
Proof.
  revert fs b. induction ps as [|p ps IH]; intros fs b; simpl.
  - intros [= <- <-]. by repeat split.
  - destruct (mkdir_p1 (fs, b) p) as [fs' b'] eqn:E1. intros Hrest.
    destruct (IH _ _ Hrest) as (Hsub & Hpres & Hdir).
    pose proof (mkdir_p1_sub fs b p) as Hs1.
    pose proof (mkdir_p1_present fs b p) as Hp1.
    pose proof (mkdir_p1_flag fs b p) as Hf1.
    pose proof (mkdir_p1_dir fs b p) as Hd1.
    rewrite E1 in Hs1, Hp1, Hf1, Hd1. simpl in *.
    split; [by etrans |]. split.
    + constructor; [|done]. destruct Hp1 as [x Hx].
      exists x. by eapply lookup_weaken.
    + intros Hb1. destruct (Hdir Hb1) as [-> Hall]. split; [by apply Hf1 |].
      constructor; [|done]. eapply is_directory_weaken; [done |]. by apply Hd1.
Qed.

Lemma mkdir_p_noop ps fs b :
  Forall (λ p, is_Some (fs !! p)) ps → (foldl mkdir_p1 (fs, b) ps).1 = fs.
Proof.
  revert b. induction ps as [|p ps IH]; intros b Hall; [done |].
  apply Forall_cons in Hall as [Hp Hall]. simpl.
  destruct (mkdir_p1 (fs, b) p) as [fs' b'] eqn:E1.
  pose proof (mkdir_p1_noop fs b p Hp) as Hn. rewrite E1 in Hn. simpl in Hn.
  subst fs'. by apply IH.
Qed.

Lemma mkdir_p_dir_noop ps fs b :
  Forall (λ p, is_directory fs p = true) ps → foldl mkdir_p1 (fs, b) ps = (fs, b).
Proof.
  induction ps as [|p ps IH]; intros Hall; [done |].
  apply Forall_cons in Hall as [Hp Hall]. simpl.
  rewrite (mkdir_p1_dir_noop _ _ _ Hp). by apply IH.
Qed.

(** Running [mkdir -p] again, on a store that kept what the first run
    left, changes nothing and fails only where the first run failed. *)
Lemma mkdir_p_rerun w ps fs o fs1 fsx :
  guard w (host_remote (MkdirP ps) fs) = Some (o, fs1) →
  (∀ p, is_Some (fs1 !! p) → is_Some (fsx !! p)) →
  (∀ p, is_directory fs1 p = true → is_directory fsx p = true) →
  guard w (host_remote (MkdirP ps) fsx) = Some ("", fsx).
Proof.
  unfold guard, host_remote, mkdir_p.
  destruct (foldl mkdir_p1 (fs, false) ps) as [fs1' bad] eqn:E1. simpl.
  destruct (bad && negb w) eqn:Hg; [discriminate |]. intros [= _ ->] Hpres Hdir.
  destruct (mkdir_p_acc _ _ _ _ _ E1) as (_ & Hall & Hok).
  destruct (foldl mkdir_p1 (fsx, false) ps) as [fsx' bad'] eqn:E2. simpl.
  assert (fsx' = fsx) as ->.
  { pose proof (mkdir_p_noop ps fsx false) as Hn. rewrite E2 in Hn.
    apply Hn. eapply Forall_impl; [exact Hall |]. auto. }
  destruct w; [by rewrite andb_false_r |].
  rewrite andb_true_r in Hg. subst bad.
  destruct (Hok eq_refl) as [_ Hdirs].
  rewrite mkdir_p_dir_noop in E2
    by (eapply Forall_impl; [exact Hdirs |]; auto).
  by injection E2 as <-.
Qed.

End Store.

(** ** A fresh layout *)

Lemma is_directory_absent (fs : store) p : fs !! p = None → is_directory fs p = false.
Proof.
  intros Hp. unfold is_directory, realpath.
  rewrite follow_here by (intros t; rewrite Hp; discriminate). by rewrite Hp.
Qed.

Lemma test_e_absent (fs : store) p : fs !! p = None → test_e fs p = false.
Proof.
  intros Hp. destruct (test_e fs p) eqn:E; [|done].
  apply test_e_present in E as [x Hx]. congruence.
Qed.

Lemma mkdir_p_fresh ps (fs : store) :
  Forall (λ d, fs !! d = None ∨ fs !! d = Some Dir) ps →
  ∃ fs1, foldl mkdir_p1 (fs, false) ps = (fs1, false)
         ∧ Forall (λ d, fs1 !! d = Some Dir) ps
         ∧ (∀ q, q ∉ ps → fs1 !! q = fs !! q).
Proof.
  revert fs. induction ps as [|p ps IH]; intros fs Hall.
  - exists fs. by repeat split.
  - apply Forall_cons in Hall as [Hp Hall]. simpl.
    assert (∃ fs', mkdir_p1 (fs, false) p = (fs', false)
                   ∧ fs' !! p = Some Dir
                   ∧ fs ⊆ fs'
                   ∧ ∀ q, q ≠ p → fs' !! q = fs !! q) as (fs' & E & Hd & Hsub & Ho).
    { destruct Hp as [Hp | Hp].
      - exists (<[p:=Dir]> fs). unfold mkdir_p1. simpl.
        rewrite (is_directory_absent _ _ Hp), Hp.
        repeat split; [apply lookup_insert_eq | by apply insert_subseteq |].
        intros q Hq. by apply lookup_insert_ne.
      - exists fs. rewrite mkdir_p1_dir_noop by by apply is_directory_here.
        by repeat split. }
    rewrite E. destruct (IH fs') as (fs1 & E1 & Hd1 & Ho1).
    { eapply Forall_impl; [exact Hall |]. intros d Hd'. simpl in Hd'.
      destruct (decide (d = p)) as [-> | Hne]; [by right |].
      by rewrite (Ho _ Hne). }
    exists fs1. split; [done |]. split.
    + constructor; [|done].
      destruct (decide (p ∈ ps)) as [Hin | Hnin].
      * by eapply Forall_forall in Hd1.
      * by rewrite (Ho1 _ Hnin).
    + intros q Hq. apply not_elem_of_cons in Hq as [Hq1 Hq2].
      by rewrite (Ho1 _ Hq2), (Ho _ Hq1).
Qed.

Lemma guard_mkdir w ps (fs fs1 : store) :
  mkdir_p fs ps = (fs1, false) →
  guard w (host_remote (MkdirP ps) fs) = Some ("", fs1).
Proof. intros E. unfold guard, host_remote. by rewrite E. Qed.

Lemma guard_readlink w (fs : store) p q :
  realpath fs p = Some q →
  guard w (host_remote (ReadlinkF p) fs) = Some (q, fs).
Proof. intros E. unfold guard, host_remote. by rewrite E. Qed.

Lemma link_unless_there_new w (fs : store) t l :
  fs !! l = None → link_unless_there w fs t l = Some (<[l:=Link t]> fs).
Proof.
  intros Hl. unfold link_unless_there, guard, host_remote, ln_s.
  by rewrite (test_e_absent _ _ Hl), (is_directory_absent _ _ Hl), Hl.
Qed.

Lemma link_unless_there_skip w (fs : store) t l :
  test_e fs l = true → link_unless_there w fs t l = Some fs.
Proof. intros Hl. unfold link_unless_there. by rewrite Hl. Qed.

Lemma blue_in_layout root : path_join root "blue" ∈ layout_dirs root.
Proof. apply list_elem_of_lookup. by exists 1. Qed.

Lemma green_in_layout root : path_join root "green" ∈ layout_dirs root.
Proof. apply list_elem_of_lookup. by exists 2. Qed.

(** ** Sites *)

Lemma absent_or_dir_inv (fs : store) p :
  absent_or_dir fs p = true → fs !! p = None ∨ fs !! p = Some Dir.
Proof. unfold absent_or_dir. destruct (fs !! p) as [[| |t]|]; auto; done. Qed.

Lemma absent_or_slot_inv (fs : store) root p :
  absent_or_slot fs root p = true →
  fs !! p = None
  ∨ ∃ t, fs !! p = Some (Link t)
         ∧ (t = path_join root "blue" ∨ t = path_join root "green").
Proof.
  unfold absent_or_slot. destruct (fs !! p) as [[| |t]|]; auto; try done.
  intros [Ht | Ht]%orb_true_iff; apply String.eqb_eq in Ht; right; eauto.
Qed.

Lemma layout_site_inv (fs : store) root :
  layout_site fs root = true →
  canonical root = true
  ∧ Forall (λ d, fs !! d = None ∨ fs !! d = Some Dir) (ancestors root)
  ∧ Forall (λ d, fs !! d = None ∨ fs !! d = Some Dir) (layout_dirs root)
  ∧ absent_or_slot fs root (path_join root "live") = true
  ∧ absent_or_slot fs root (path_join root "next") = true.
Proof.
  unfold layout_site.
  intros [[[Hc Hd]%andb_true_iff Hl]%andb_true_iff Hn]%andb_true_iff.
  rewrite forallb_app in Hd. apply andb_true_iff in Hd as [Ha Hd].
  repeat split; try done.
  - apply Forall_forall. intros d Hin. apply absent_or_dir_inv.
    rewrite forallb_forall in Ha. apply Ha. by apply list_elem_of_In.
  - apply Forall_forall. intros d Hin. apply absent_or_dir_inv.
    rewrite forallb_forall in Hd. apply Hd. by apply list_elem_of_In.
Qed.

Lemma link_to_dir (fs : store) l x :
  fs !! l = Some (Link x) → fs !! x = Some Dir →
  realpath fs l = Some x ∧ test_e fs l = true ∧ is_directory fs l = true.
Proof.
  intros Hl Hx.
  assert (Hr : realpath fs l = Some x).
  { unfold realpath, SYMLOOP_MAX. rewrite (follow_link _ _ _ _ Hl).
    apply follow_here. intros t. rewrite Hx. discriminate. }
  split; [done |]. unfold test_e, is_directory. rewrite Hr, Hx.
  split; [|done]. by apply bool_decide_eq_true_2.
Qed.

(** Lines 150-153 where the link is free or leads to a directory. *)
Lemma site_link w (fs : store) t l :
  fs !! t = Some Dir →
  (fs !! l = None ∨ ∃ x, fs !! l = Some (Link x) ∧ fs !! x = Some Dir) →
  ∃ fs' x,
    link_unless_there w fs t l = Some fs'
    ∧ fs' !! l = Some (Link x)
    ∧ (fs !! l = None → x = t)
    ∧ (∀ y, fs !! l = Some (Link y) → x = y ∧ fs' = fs)
    ∧ (∀ q, q ≠ l → fs' !! q = fs !! q).
Proof.
  intros Ht [Hl | (x & Hl & Hx)].
  - exists (<[l := Link t]> fs), t.
    split; [by apply link_unless_there_new |].
    split; [apply lookup_insert_eq |]. split; [done |].
    split; [intros y Hy; congruence |].
    intros q Hq. by apply lookup_insert_ne.
  - exists fs, x. destruct (link_to_dir _ _ _ Hl Hx) as (_ & Hte & _).
    split; [by apply link_unless_there_skip |]. split; [done |].
    split; [intros Hn; congruence |]. split; [|done].
    intros y Hy. split; [congruence | done].
Qed.

(** [init_bluegreen] on a site: every command succeeds, and the two names
    cached are the slots [next] and [live] lead to. *)
Lemma init_pure_site root m w e (fs : store) :
  layout_site fs root = true →
  ∃ fs3 N L,
    init_pure root (VPorts m) w e fs
    = Some (derived_env N L m (paths_env root e), fs3)
    ∧ Forall (λ d, fs3 !! d = Some Dir) (layout_dirs root)
    ∧ fs3 !! path_join root "live" = Some (Link L)
    ∧ fs3 !! path_join root "next" = Some (Link N)
    ∧ (L = path_join root "blue" ∨ L = path_join root "green")
    ∧ (N = path_join root "blue" ∨ N = path_join root "green")
    ∧ (fs !! path_join root "live" = None → L = path_join root "blue")
    ∧ (fs !! path_join root "next" = None → N = path_join root "green")
    ∧ (∀ y, fs !! path_join root "live" = Some (Link y) → L = y)
    ∧ (∀ y, fs !! path_join root "next" = Some (Link y) → N = y).
Proof.
  intros Hsite.
  destruct (layout_site_inv _ _ Hsite) as (_ & _ & Hdirs & Hlive & Hnext).
  apply absent_or_slot_inv in Hlive, Hnext.
  destruct (layout_names_distinct root) as (Hln & Hdl & _).
  destruct (mkdir_p_fresh _ _ Hdirs) as (fs1 & E1 & Hd1 & Ho1).
  set (blue := path_join root "blue") in *.
  set (green := path_join root "green") in *.
  set (live := path_join root "live") in *.
  set (next := path_join root "next") in *.
  assert (Hblue : fs1 !! blue = Some Dir)
    by (eapply Forall_forall in Hd1; [exact Hd1 | apply blue_in_layout]).
  assert (Hgreen : fs1 !! green = Some Dir)
    by (eapply Forall_forall in Hd1; [exact Hd1 | apply green_in_layout]).
  assert (Hslot : ∀ t, t = blue ∨ t = green → fs1 !! t = Some Dir)
    by (intros t [-> | ->]; done).
  assert (Hl1 : fs1 !! live = fs !! live).
  { apply Ho1. intros Hin.
    eapply Forall_forall in Hdl; [|exact Hin]. by destruct Hdl. }
  assert (Hn1 : fs1 !! next = fs !! next).
  { apply Ho1. intros Hin.
    eapply Forall_forall in Hdl; [|exact Hin]. by destruct Hdl. }
  assert (Hbl : blue ≠ live ∧ blue ≠ next).
  { pose proof (blue_in_layout root) as Hin.
    eapply Forall_forall in Hdl; [|exact Hin]. exact Hdl. }
  assert (Hgl : green ≠ live ∧ green ≠ next).
  { pose proof (green_in_layout root) as Hin.
    eapply Forall_forall in Hdl; [|exact Hin]. exact Hdl. }
  destruct (site_link w fs1 blue live Hblue) as (fs2 & L & G2 & HL & HLn & HLy & Ho2).
  { rewrite Hl1. destruct Hlive as [? | (t & Ht & Hs)]; [by left |].
    right. exists t. split; [done |]. by apply Hslot. }
  assert (HLs : L = blue ∨ L = green).
  { destruct Hlive as [Hnone | (t & Ht & Hs)].
    - left. apply HLn. by rewrite Hl1.
    - rewrite <- Hl1 in Ht. by destruct (HLy _ Ht) as [-> _]. }
  assert (Hg2 : fs2 !! green = Some Dir)
    by (rewrite Ho2 by apply Hgl; done).
  destruct (site_link w fs2 green next Hg2) as (fs3 & N & G3 & HN & HNn & HNy & Ho3).
  { rewrite (Ho2 next) by (intros E; by rewrite E in Hln). rewrite Hn1.
    destruct Hnext as [? | (t & Ht & Hs)]; [by left |].
    right. exists t. split; [done |].
    destruct Hs as [-> | ->]; rewrite Ho2; first [done | apply Hbl | apply Hgl]. }
  assert (Hn2 : fs2 !! next = fs !! next)
    by (rewrite (Ho2 next) by (intros E; by rewrite E in Hln); done).
  assert (HNs : N = blue ∨ N = green).
  { destruct Hnext as [Hnone | (t & Ht & Hs)].
    - right. apply HNn. by rewrite Hn2.
    - rewrite <- Hn2 in Ht. by destruct (HNy _ Ht) as [-> _]. }
  assert (Hkeep : ∀ d, d ∈ layout_dirs root → fs3 !! d = Some Dir).
  { intros d Hd. eapply Forall_forall in Hdl as [? ?]; [|exact Hd].
    rewrite Ho3, Ho2 by done. by eapply Forall_forall in Hd1. }
  assert (Hl3 : fs3 !! live = Some (Link L)) by (rewrite Ho3 by done; done).
  assert (Hslot3 : ∀ t, t = blue ∨ t = green → fs3 !! t = Some Dir).
  { intros t [-> | ->]; apply Hkeep;
      [apply blue_in_layout | apply green_in_layout]. }
  destruct (link_to_dir _ _ _ Hl3 (Hslot3 _ HLs)) as (Hrl & _ & _).
  destruct (link_to_dir _ _ _ HN (Hslot3 _ HNs)) as (Hrn & _ & _).
  exists fs3, N, L. split.
  { unfold init_pure. fold blue green live next.
    rewrite (guard_mkdir _ _ _ _ E1), G2, G3.
    by rewrite (guard_readlink _ _ _ _ Hrn), (guard_readlink _ _ _ _ Hrl). }
  split; [apply Forall_forall; intros d Hd; by apply Hkeep |].
  split; [done |]. split; [done |]. split; [done |]. split; [done |].
  split; [intros Hnone; apply HLn; by rewrite Hl1 |].
  split; [intros Hnone; apply HNn; by rewrite Hn2 |].
  split.
  - intros y Hy. rewrite <- Hl1 in Hy. by destruct (HLy _ Hy).
  - intros y Hy. rewrite <- Hn2 in Hy. by destruct (HNy _ Hy).
Qed.

(** C5. On a site (a canonical root; the directories above it and the
    five directories of the layout absent or already directories) where
    neither [live] nor [next] exists, [init_bluegreen] succeeds:
    afterwards root, root/blue, root/green and an [etc] under each slot are
    directories, [live] is a link to blue and [next] a link to green, the
    next color is ["green"] and the port is the one the port mapping gives
    for ["green"]. *)
Theorem init_fresh (s : state store) root ports :
  env s !! "bluegreen_root" = Some (VStr root) →
  env s !! "bluegreen_ports" = Some (VPorts ports) →
  ports ≠ ∅ →
  world s !! path_join root "live" = None →
  world s !! path_join root "next" = None →
  layout_site (world s) root = true →
  ∃ s',
    init_bluegreen s = Ok tt s'
    ∧ Forall (λ d, world s' !! d = Some Dir)
        [root; path_join root "blue"; path_join root "green";
         path_join root "blue" +:+ "/etc"; path_join root "green" +:+ "/etc"]
    ∧ world s' !! path_join root "live" = Some (Link (path_join root "blue"))
    ∧ world s' !! path_join root "next" = Some (Link (path_join root "green"))
    ∧ points_to (world s') (path_join root "live")
      = Some (path_join root "blue")
    ∧ points_to (world s') (path_join root "next")
      = Some (path_join root "green")
    ∧ env s' !! "live_path" = Some (VStr (path_join root "blue"))
    ∧ env s' !! "next_path" = Some (VStr (path_join root "green"))
    ∧ env s' !! "color" = Some (VStr "green")
    ∧ env s' !! "bluegreen_port"
      = Some (match ports !! "green" with
              | Some n => VInt n
              | None => VNone
              end).
Proof.
  intros Hroot Hports Hne Hlive Hnext Hsite.
  destruct (layout_site_inv _ _ Hsite) as (_ & _ & Hdirs & _ & _).
  destruct (layout_names_distinct root) as (Hln & Hdl & _).
  destruct (mkdir_p_fresh _ _ Hdirs) as (fs1 & E1 & Hd1 & Ho1).
  assert (Hl1 : fs1 !! path_join root "live" = None).
  { rewrite Ho1; [done |]. intros Hin.
    eapply Forall_forall in Hdl; [|exact Hin]. by destruct Hdl. }
  assert (Hn1 : fs1 !! path_join root "next" = None).
  { rewrite Ho1; [done |]. intros Hin.
    eapply Forall_forall in Hdl; [|exact Hin]. by destruct Hdl. }
  set (blue := path_join root "blue") in *.
  set (green := path_join root "green") in *.
  set (live := path_join root "live") in *.
  set (next := path_join root "next") in *.
  set (fs2 := <[live := Link blue]> fs1).
  set (fs3 := <[next := Link green]> fs2).
  assert (Hblue : fs1 !! blue = Some Dir)
    by (eapply Forall_forall in Hd1; [exact Hd1 | apply blue_in_layout]).
  assert (Hgreen : fs1 !! green = Some Dir)
    by (eapply Forall_forall in Hd1; [exact Hd1 | apply green_in_layout]).
  assert (Hkeep : ∀ d, d ∈ layout_dirs root → fs3 !! d = Some Dir).
  { intros d Hd. eapply Forall_forall in Hdl as [? ?]; [|exact Hd].
    unfold fs3, fs2. rewrite !lookup_insert_ne by done.
    by eapply Forall_forall in Hd1. }
  assert (Hl3 : fs3 !! live = Some (Link blue)).
  { unfold fs3, fs2. rewrite lookup_insert_ne by done. apply lookup_insert_eq. }
  assert (Hn3 : fs3 !! next = Some (Link green)).
  { unfold fs3. apply lookup_insert_eq. }
  assert (Hb3 : fs3 !! blue = Some Dir) by apply Hkeep, blue_in_layout.
  assert (Hg3 : fs3 !! green = Some Dir) by apply Hkeep, green_in_layout.
  assert (Hrl : realpath fs3 live = Some blue).
  { unfold realpath, SYMLOOP_MAX. rewrite (follow_link _ _ _ _ Hl3).
    apply follow_here. intros t. rewrite Hb3. discriminate. }
  assert (Hrn : realpath fs3 next = Some green).
  { unfold realpath, SYMLOOP_MAX. rewrite (follow_link _ _ _ _ Hn3).
    apply follow_here. intros t. rewrite Hg3. discriminate. }
  assert (Hpure : init_pure root (VPorts ports) (warn_only s) (env s) (world s)
    = Some (derived_env green blue ports (paths_env root (env s)), fs3)).
  { assert (Hn2 : fs2 !! next = None)
      by (unfold fs2; by rewrite lookup_insert_ne).
    unfold init_pure. fold blue green live next.
    rewrite (guard_mkdir _ _ _ _ E1).
    rewrite (link_unless_there_new _ _ _ _ Hl1). fold fs2.
    rewrite (link_unless_there_new _ _ _ _ Hn2). fold fs3.
    by rewrite (guard_readlink _ _ _ _ Hrn), (guard_readlink _ _ _ _ Hrl). }
  assert (Hprov : provided (env s) "bluegreen_ports" = true).
  { unfold provided. rewrite Hports. by rewrite bool_decide_eq_false_2. }
  destruct (init_ok_intro s root (VPorts ports) _ _ Hroot Hports Hprov Hpure)
    as [l Hok].
  eexists. split; [exact Hok |]. cbn [env world].
  split; [apply Forall_forall; intros d Hd; by apply Hkeep |].
  split; [exact Hl3 |]. split; [exact Hn3 |].
  split; [exact Hrl |]. split; [exact Hrn |].
  unfold derived_env. split; [| split; [| split]].
  - by rewrite !lookup_insert_ne, lookup_insert_eq by done.
  - by rewrite !lookup_insert_ne, lookup_insert_eq by done.
  - rewrite !lookup_insert_ne, lookup_insert_eq by done.
    unfold green. by rewrite (basename_slot root "green") by reflexivity.
  - rewrite lookup_insert_eq. unfold green, port_value.
    by rewrite (basename_slot root "green") by reflexivity.
Qed.

(** ** [swap_bluegreen] on the host *)

Lemma provided_lookup (e : gmap string value) k :
  provided e k = true → ∃ v, e !! k = Some v.
Proof. unfold provided. destruct (e !! k); [eauto | done]. Qed.

Lemma swap_bluegreen_pure (s : state store) n l la na :
  env s !! "next_path" = Some n →
  env s !! "live_path" = Some l →
  env s !! "live_path_abs" = Some la →
  env s !! "next_path_abs" = Some na →
  Forall (λ k, provided (env s) k = true) swap_keys →
  match swap_pure (warn_only s) (str n) (str l) (str la) (str na) (world s) with
  | Some fs' =>
      swap_bluegreen s
      = Ok tt (State (env s) fs'
                 ((log s ++ [ERemote None (cwd s) (LnNSF (str n) (str la))])
                  ++ [ERemote None (cwd s) (LnNSF (str l) (str na))]))
  | None => ∃ f s', swap_bluegreen s = Err f s'
  end.
Proof.
  intros Hn Hl Hla Hna Hprov.
  remember (swap_bluegreen s) as P eqn:HP. unfold swap_bluegreen in HP.
  rewrite (bind_ok _ _ _ _ _ (require_ok _ s Hprov)) in HP.
  do 2 pure_step HP. unfold swap_pure.
  destruct (guard _ (host_remote (LnNSF (str n) (str la)) _))
    as [[o1 fs1]|] eqn:G1;
    [| subst P; apply bind_fails; by apply run_fails].
  rewrite (bind_ok _ _ _ _ _ (run_ok _ _ _ _ G1)) in HP.
  do 2 pure_step HP.
  destruct (guard _ (host_remote (LnNSF (str l) (str na)) _))
    as [[o2 fs2]|] eqn:G2;
    [| subst P; apply bind_fails; by eapply run_fails_at].
  erewrite bind_ok in HP by (by eapply run_ok_at).
  by subst P.
Qed.

Lemma swap_ok_inv (s s' : state store) :
  swap_bluegreen s = Ok tt s' →
  ∃ n l la na fs',
    env s !! "next_path" = Some n
    ∧ env s !! "live_path" = Some l
    ∧ env s !! "live_path_abs" = Some la
    ∧ env s !! "next_path_abs" = Some na
    ∧ Forall (λ k, provided (env s) k = true) swap_keys
    ∧ swap_pure (warn_only s) (str n) (str l) (str la) (str na) (world s)
      = Some fs'
    ∧ s' = State (env s) fs'
             ((log s ++ [ERemote None (cwd s) (LnNSF (str n) (str la))])
              ++ [ERemote None (cwd s) (LnNSF (str l) (str na))]).
Proof.
  intros Hok. pose proof Hok as Hinv. unfold swap_bluegreen in Hinv.
  apply bind_inv in Hinv as ([] & s1 & Hreq & _).
  apply require_inv in Hreq as [_ Hprov].
  pose proof Hprov as Hp.
  apply Forall_cons in Hp as [[n Hn]%provided_lookup Hp].
  apply Forall_cons in Hp as [[l Hl]%provided_lookup Hp].
  apply Forall_cons in Hp as [[la Hla]%provided_lookup Hp].
  apply Forall_cons in Hp as [[na Hna]%provided_lookup _].
  exists n, l, la, na.
  pose proof (swap_bluegreen_pure s n l la na Hn Hl Hla Hna Hprov) as Hpure.
  destruct (swap_pure _ _ _ _ _ _) as [fs'|].
  - exists fs'. repeat (split; [done |]). rewrite Hpure in Hok.
    by injection Hok as <-.
  - destruct Hpure as (f & s0 & Hf). rewrite Hf in Hok. discriminate.
Qed.

Section Swap.
Implicit Types (fs : store) (t l d : string).

Lemma guard_ln_nsf w fs t l :
  guard w (host_remote (LnNSF t l) fs)
  = match ln_dest fs t l with
    | Some d => Some ("", <[d:=Link t]> fs)
    | None => if w then Some ("", fs) else None
    end.
Proof.
  unfold guard, host_remote, ln_nsf, ln_dest, real_dir.
  destruct (fs !! l) as [[| |x]|]; try reflexivity.
  destruct (fs !! (l +:+ "/" +:+ basename t)) as [[| |x]|];
    try reflexivity.
  by destruct w.
Qed.

Lemma ln_dest_not_dir fs t l d : ln_dest fs t l = Some d → real_dir fs d = false.
Proof.
  unfold ln_dest. destruct (real_dir fs l) eqn:E1.
  - destruct (real_dir fs (l +:+ "/" +:+ basename t)) eqn:E2;
      [discriminate |]. by intros [= <-].
  - by intros [= <-].
Qed.

Lemma same_dirs_insert fs d t :
  real_dir fs d = false → same_dirs fs (<[d:=Link t]> fs).
Proof.
  intros Hd p. unfold real_dir in *.
  destruct (decide (d = p)) as [<- | Hne].
  - by rewrite lookup_insert_eq.
  - by rewrite lookup_insert_ne.
Qed.

Lemma ln_dest_same fs fs' t l : same_dirs fs fs' → ln_dest fs t l = ln_dest fs' t l.
Proof. intros Hs. unfold ln_dest. by rewrite !Hs. Qed.

Lemma same_dirs_trans fs1 fs2 fs3 :
  same_dirs fs1 fs2 → same_dirs fs2 fs3 → same_dirs fs1 fs3.
Proof. intros H1 H2 p. by rewrite H1. Qed.

Lemma insert_link_twice fs d d' (x y : node) :
  <[d':=y]> (<[d:=x]> (<[d':=y]> (<[d:=x]> fs))) = <[d':=y]> (<[d:=x]> fs).
Proof.
  apply map_eq. intros i. rewrite !lookup_insert.
  repeat case_decide; congruence.
Qed.

(** A second run of the two repoints from the same cached names leaves the
    store as the first run left it. *)
Lemma swap_pure_again w n l la na fs fs2 :
  swap_pure w n l la na fs = Some fs2 →
  swap_pure w n l la na fs2 = Some fs2.
Proof.
  unfold swap_pure. rewrite !guard_ln_nsf.
  destruct (ln_dest fs n la) as [d|] eqn:D1.
  - pose proof (same_dirs_insert _ _ n (ln_dest_not_dir _ _ _ _ D1)) as S1.
    rewrite guard_ln_nsf.
    destruct (ln_dest (<[d:=Link n]> fs) l na) as [d'|] eqn:D2.
    + intros [= <-].
      pose proof (same_dirs_insert _ _ l (ln_dest_not_dir _ _ _ _ D2)) as S2.
      rewrite <- (ln_dest_same _ _ n la (same_dirs_trans _ _ _ S1 S2)), D1.
      rewrite guard_ln_nsf.
      assert (S3 : same_dirs (<[d:=Link n]> fs)
                     (<[d:=Link n]> (<[d':=Link l]> (<[d:=Link n]> fs)))).
      { eapply same_dirs_trans; [exact S2 |]. apply same_dirs_insert.
        rewrite <- (same_dirs_trans _ _ _ S1 S2).
        by eapply ln_dest_not_dir. }
      rewrite <- (ln_dest_same _ _ l na S3), D2.
      by rewrite insert_link_twice.
    + destruct w; [|discriminate]. intros [= <-].
      rewrite <- (ln_dest_same _ _ n la S1), D1.
      rewrite guard_ln_nsf, insert_insert_eq. by rewrite D2.
  - destruct w; [|discriminate]. rewrite guard_ln_nsf.
    destruct (ln_dest fs l na) as [d'|] eqn:D2.
    + intros [= <-].
      pose proof (same_dirs_insert _ _ l (ln_dest_not_dir _ _ _ _ D2)) as S2.
      rewrite <- (ln_dest_same _ _ n la S2), D1.
      rewrite guard_ln_nsf, <- (ln_dest_same _ _ l na S2), D2.
      by rewrite insert_insert_eq.
    + intros [= <-]. rewrite D1. by rewrite guard_ln_nsf, D2.
Qed.

End Swap.

(** C9. In any state in which [swap_bluegreen] succeeds, it succeeds again
    right away, with the same two [ln -nsf] commands built from the same
    cached names (the dictionary is not touched by either call), and the
    store after the second call is the store after the first. *)
Theorem swap_twice_same (s s1 : state store) :
  swap_bluegreen s = Ok tt s1 →
  ∃ n l la na s2,
    let repoints := [ERemote None (cwd s) (LnNSF n la);
                     ERemote None (cwd s) (LnNSF l na)] in
    swap_bluegreen s1 = Ok tt s2
    ∧ env s1 = env s
    ∧ env s2 = env s
    ∧ world s2 = world s1
    ∧ log s1 = log s ++ repoints
    ∧ log s2 = log s1 ++ repoints.
Proof.
  intros Hok.
  destruct (swap_ok_inv _ _ Hok)
    as (n & l & la & na & fs1 & Hn & Hl & Hla & Hna & Hprov & Hpure & ->).
  exists (str n), (str l), (str la), (str na).
  pose proof (swap_bluegreen_pure
                (State (env s) fs1
                   ((log s ++ [ERemote None (cwd s) (LnNSF (str n) (str la))])
                    ++ [ERemote None (cwd s) (LnNSF (str l) (str na))]))
                n l la na Hn Hl Hla Hna Hprov) as Hagain.
  cbn [env world log] in Hagain.
  replace (warn_only (State (env s) fs1 _)) with (warn_only s)
    in Hagain by reflexivity.
  rewrite (swap_pure_again _ _ _ _ _ _ _ Hpure) in Hagain.
  eexists. split; [exact Hagain |]. cbn [env world log].
  repeat split; by rewrite <- ?app_assoc.
Qed.

(** ** Running [init_bluegreen] again *)

Section Again.
Implicit Types (fs : store) (e : gmap string value).

Lemma init_pure_inv root pv w e fs e1 fs3 :
  init_pure root pv w e fs = Some (e1, fs3) →
  ∃ o fs1 fs2 N L m,
    guard w (host_remote (MkdirP (layout_dirs root)) fs) = Some (o, fs1)
    ∧ link_unless_there w fs1 (path_join root "blue") (path_join root "live")
      = Some fs2
    ∧ link_unless_there w fs2 (path_join root "green") (path_join root "next")
      = Some fs3
    ∧ guard w (host_remote (ReadlinkF (path_join root "next")) fs3)
      = Some (N, fs3)
    ∧ guard w (host_remote (ReadlinkF (path_join root "live")) fs3)
      = Some (L, fs3)
    ∧ pv = VPorts m
    ∧ e1 = derived_env N L m (paths_env root e).
Proof.
  unfold init_pure.
  destruct (guard w (host_remote (MkdirP _) fs)) as [[o fs1]|] eqn:G1; [|done].
  destruct (link_unless_there w fs1 _ _) as [fs2|] eqn:G2; [|done].
  destruct (link_unless_there w fs2 _ _) as [fs3'|] eqn:G3; [|done].
  destruct (guard w (host_remote (ReadlinkF (path_join root "next")) fs3'))
    as [[N x]|] eqn:G4; [|done].
  destruct (guard w (host_remote (ReadlinkF (path_join root "live")) fs3'))
    as [[L y]|] eqn:G5; [|done].
  destruct pv as [| | | |m]; try done. intros [= <- <-].
  apply readlink_store in G4 as G4'. destruct G4' as [-> _].
  apply readlink_store in G5 as G5'. destruct G5' as [-> _].
  by exists o, fs1, fs2, N, L, m.
Qed.

Lemma ln_s_sub fs t l : fs ⊆ (ln_s fs t l).1.
Proof.
  unfold ln_s. destruct (is_directory fs l).
  - destruct (realpath fs l) as [d|]; [|done].
    destruct (fs !! (d +:+ "/" +:+ basename t)) eqn:E; [done |].
    by apply insert_subseteq.
  - destruct (fs !! l) eqn:E; [done |]. by apply insert_subseteq.
Qed.

Lemma link_unless_there_inv w fs t l fs' :
  link_unless_there w fs t l = Some fs' →
  fs ⊆ fs' ∧ is_Some (fs' !! l)
  ∧ (w = false →
     test_e fs l = true ∨ (fs !! l = None ∧ fs' = <[l:=Link t]> fs)).
Proof.
  unfold link_unless_there. destruct (test_e fs l) eqn:Ht.
  - intros [= <-]. split; [done |]. split; [by apply test_e_present | auto].
  - unfold guard, host_remote.
    pose proof (ln_s_sub fs t l) as Hsub. unfold ln_s in *.
    destruct (is_directory fs l) eqn:Hd;
      [apply is_directory_test_e in Hd; congruence |].
    destruct (fs !! l) as [x|] eqn:Hl; simpl.
    + destruct w; [|discriminate]. intros [= <-]. split; [done |].
      split; [eauto | discriminate].
    + intros [= <-]. split; [done |]. rewrite lookup_insert_eq.
      split; [eauto | auto].
Qed.

Lemma link_rerun w fs t l fs' fsx :
  link_unless_there w fs t l = Some fs' →
  fs' ⊆ fsx →
  (w = false → test_e fsx l = true) →
  link_unless_there w fsx t l = Some fsx.
Proof.
  intros Hl Hsub Hw.
  destruct (link_unless_there_inv _ _ _ _ _ Hl) as (_ & [x Hx] & _).
  pose proof (lookup_weaken _ _ _ _ Hx Hsub) as Hx'.
  unfold link_unless_there. destruct (test_e fsx l) eqn:Ht; [done |].
  destruct w; [| by specialize (Hw eq_refl)].
  unfold guard, host_remote, ln_s.
  destruct (is_directory fsx l) eqn:Hd;
    [apply is_directory_test_e in Hd; congruence |].
  by rewrite Hx'.
Qed.

(** A link to a directory leads somewhere, provided following it does not
    give up. *)
Lemma link_target_exists fs l t q :
  fs !! l = Some (Link t) →
  realpath fs l = Some q →
  is_directory fs t = true →
  test_e fs l = true.
Proof.
  unfold test_e, is_directory, realpath, SYMLOOP_MAX.
  intros Hl Hq. rewrite Hq. rewrite (follow_link _ _ _ _ Hl) in Hq.
  apply follow_more in Hq. rewrite Hq.
  destruct (fs !! q); [|done]. intros _. by apply bool_decide_eq_true_2.
Qed.

Lemma guard_readlink_strict fs p q fs' :
  guard false (host_remote (ReadlinkF p) fs) = Some (q, fs') →
  realpath fs p = Some q.
Proof.
  intros Hg.
  destruct (readlink_store _ _ _ _ _ Hg) as [_ [? | [Hn _]]]; [done |].
  unfold guard, host_remote in Hg. by rewrite Hn in Hg.
Qed.

Lemma derived_env_again N L m root e :
  let e1 := derived_env N L m (paths_env root e) in
  derived_env N L m (paths_env root e1) = e1.
Proof.
  intros e1. unfold derived_env at 1, paths_env at 1.
  repeat (rewrite insert_id; [| subst e1; env_lookup]).
  reflexivity.
Qed.

Lemma guard_mkdir_strict ps fs o fs1 :
  guard false (host_remote (MkdirP ps) fs) = Some (o, fs1) →
  Forall (λ p, is_directory fs1 p = true) ps.
Proof.
  unfold guard, host_remote, mkdir_p.
  destruct (foldl mkdir_p1 (fs, false) ps) as [fs1' bad] eqn:E. simpl.
  rewrite andb_true_r. destruct bad; [discriminate |]. intros [= _ <-].
  by destruct (mkdir_p_acc _ _ _ _ _ E) as (_ & _ & [_ ?]).
Qed.

Lemma init_pure_again root pv w e fs e1 fs3 :
  init_pure root pv w e fs = Some (e1, fs3) →
  init_pure root pv w e1 fs3 = Some (e1, fs3).
Proof.
  intros Hpure.
  destruct (init_pure_inv _ _ _ _ _ _ _ Hpure)
    as (o & fs1 & fs2 & N & L & m & G1 & G2 & G3 & G4 & G5 & -> & ->).
  destruct (link_unless_there_inv _ _ _ _ _ G2) as (S12 & _ & C2).
  destruct (link_unless_there_inv _ _ _ _ _ G3) as (S23 & _ & C3).
  assert (S13 : fs1 ⊆ fs3) by by etrans.
  assert (Hdirs : w = false →
    is_directory fs3 (path_join root "blue") = true
    ∧ is_directory fs3 (path_join root "green") = true).
  { intros ->. pose proof (guard_mkdir_strict _ _ _ _ G1) as Hall.
    split; (eapply is_directory_weaken; [exact S13 |]);
      (eapply Forall_forall in Hall; [exact Hall |]).
    - apply blue_in_layout.
    - apply green_in_layout. }
  assert (R1 : guard w (host_remote (MkdirP (layout_dirs root)) fs3)
               = Some ("", fs3)).
  { eapply mkdir_p_rerun; [exact G1 | |].
    - intros p [x Hx]. exists x. by eapply lookup_weaken.
    - intros p. by apply is_directory_weaken. }
  assert (R2 : link_unless_there w fs3 (path_join root "blue")
                 (path_join root "live") = Some fs3).
  { eapply link_rerun; [exact G2 | exact S23 |]. intros ->.
    destruct (C2 eq_refl) as [Ht | [_ ->]].
    - eapply test_e_weaken; [exact S13 | exact Ht].
    - eapply link_target_exists.
      + eapply lookup_weaken; [apply lookup_insert_eq | exact S23].
      + by eapply guard_readlink_strict.
      + by apply Hdirs. }
  assert (R3 : link_unless_there w fs3 (path_join root "green")
                 (path_join root "next") = Some fs3).
  { eapply link_rerun; [exact G3 | done |]. intros ->.
    destruct (C3 eq_refl) as [Ht | [_ ->]].
    - eapply test_e_weaken; [exact S23 | exact Ht].
    - eapply link_target_exists.
      + apply lookup_insert_eq.
      + by eapply guard_readlink_strict.
      + by apply Hdirs. }
  unfold init_pure. rewrite R1, R2, R3, G4, G5.
  by rewrite derived_env_again.
Qed.

End Again.

(** C7. On a site, when [init_bluegreen] has succeeded, calling it again
    in the state it left succeeds and leaves the dictionary (all derived
    paths, the next color, the port) and the store (every directory and
    link) exactly as they were. *)
Theorem init_idempotent (s s1 : state store) root :
  env s !! "bluegreen_root" = Some (VStr root) →
  layout_site (world s) root = true →
  init_bluegreen s = Ok tt s1 →
  ∃ s2,
    init_bluegreen s1 = Ok tt s2
    ∧ env s2 = env s1
    ∧ world s2 = world s1.
Proof.
  intros Hroot0 _ Hok.
  destruct (init_ok_inv _ _ Hok) as (root' & pv & Hroot & Hpv & Hprov & Hpure).
  assert (root' = root) as -> by congruence.
  destruct (init_pure_inv _ _ _ _ _ _ _ Hpure)
    as (o & fs1 & fs2 & N & L & m & _ & _ & _ & _ & _ & -> & He1).
  assert (Hw : warn_only s1 = warn_only s).
  { unfold warn_only. rewrite He1. unfold derived_env, paths_env.
    by rewrite !lookup_insert_ne by done. }
  apply init_pure_again in Hpure. rewrite <- Hw in Hpure.
  assert (Hroot1 : env s1 !! "bluegreen_root" = Some (VStr root))
    by (rewrite He1; env_lookup).
  assert (Hpv1 : env s1 !! "bluegreen_ports" = Some (VPorts m))
    by (rewrite He1; env_lookup).
  assert (Hprov1 : provided (env s1) "bluegreen_ports" = true).
  { unfold provided in *. rewrite Hpv1. by rewrite Hpv in Hprov. }
  destruct (init_ok_intro s1 root (VPorts m) _ _ Hroot1 Hpv1 Hprov1 Hpure)
    as [l Hl].
  eexists. split; [exact Hl |]. done.
Qed.

(** ** Swapping, resolving again, swapping back *)

Section Redirect.
Implicit Types (fs : store).

(** Two links [a] and [b] repointed at directories [X] and [Y]. *)
Context (fs : store) (a b X Y : string).
Hypothesis (Hab : a ≠ b).
Hypothesis (Ha : is_link fs a) (Hb : is_link fs b).
Hypothesis (HX : fs !! X = Some Dir) (HY : fs !! Y = Some Dir).

Local Abbreviation fs' := (repointed fs a b X Y).

Lemma redirect_a : fs' !! a = Some (Link X).
Proof.
  unfold repointed. rewrite lookup_insert_ne by done. apply lookup_insert_eq.
Qed.

Lemma redirect_b : fs' !! b = Some (Link Y).
Proof. apply lookup_insert_eq. Qed.

Lemma redirect_other p : p ≠ a → p ≠ b → fs' !! p = fs !! p.
Proof. intros H1 H2. unfold repointed. by rewrite !lookup_insert_ne. Qed.

Lemma redirect_dir p : fs !! p = Some Dir → fs' !! p = Some Dir.
Proof.
  intros Hp. rewrite redirect_other; [done | |];
    intros ->; [destruct Ha as [t Ht] | destruct Hb as [t Ht]]; congruence.
Qed.

Lemma redirect_present p : is_Some (fs !! p) → is_Some (fs' !! p).
Proof.
  intros Hp. destruct (decide (p = b)) as [-> | H2];
    [rewrite redirect_b; eauto |].
  destruct (decide (p = a)) as [-> | H1]; [rewrite redirect_a; eauto |].
  by rewrite redirect_other.
Qed.

Lemma redirect_follow n p q :
  follow n fs p = Some q → fs !! q = Some Dir →
  ∃ q', follow n fs' p = Some q' ∧ fs' !! q' = Some Dir.
Proof.
  assert (Hend : ∀ k Z, fs !! Z = Some Dir → follow k fs' Z = Some Z).
  { intros k Z HZ. apply follow_here. intros t.
    rewrite (redirect_dir _ HZ). discriminate. }
  revert p. induction n as [|n IH]; intros p Hq Hd.
  - simpl in Hq. destruct (fs !! p) as [[| |t]|] eqn:E; try discriminate;
      injection Hq as <-; try congruence.
    exists p. split; [by apply Hend | by apply redirect_dir].
  - rewrite follow_S in Hq. rewrite follow_S.
    destruct (decide (p = b)) as [-> | H2].
    { rewrite redirect_b. exists Y. split; [by apply Hend | by apply redirect_dir]. }
    destruct (decide (p = a)) as [-> | H1].
    { rewrite redirect_a. exists X. split; [by apply Hend | by apply redirect_dir]. }
    rewrite redirect_other by done.
    destruct (fs !! p) as [[| |t]|] eqn:E; try (injection Hq as <-; congruence).
    + injection Hq as <-. exists p. split; [done | by apply redirect_dir].
    + by apply IH.
Qed.

Lemma redirect_is_directory p :
  is_directory fs p = true → is_directory fs' p = true.
Proof.
  unfold is_directory, realpath.
  destruct (follow _ fs p) as [q|] eqn:Hq; [|done].
  destruct (fs !! q) as [[]|] eqn:Hd; try done. intros _.
  destruct (redirect_follow _ _ _ Hq Hd) as (q' & -> & ->). done.
Qed.

Lemma redirect_realpath_a : realpath fs' a = Some X.
Proof.
  unfold realpath, SYMLOOP_MAX. rewrite (follow_link _ _ _ _ redirect_a).
  apply follow_here. intros t. rewrite (redirect_dir _ HX). discriminate.
Qed.

Lemma redirect_realpath_b : realpath fs' b = Some Y.
Proof.
  unfold realpath, SYMLOOP_MAX. rewrite (follow_link _ _ _ _ redirect_b).
  apply follow_here. intros t. rewrite (redirect_dir _ HY). discriminate.
Qed.

Lemma redirect_test_e_a : test_e fs' a = true.
Proof.
  unfold test_e. rewrite redirect_realpath_a, (redirect_dir _ HX).
  by apply bool_decide_eq_true_2.
Qed.

Lemma redirect_test_e_b : test_e fs' b = true.
Proof.
  unfold test_e. rewrite redirect_realpath_b, (redirect_dir _ HY).
  by apply bool_decide_eq_true_2.
Qed.

(** The two repoints of [swap_bluegreen] on links. *)
Lemma swap_pure_links w : swap_pure w X Y a b fs = Some fs'.
Proof.
  destruct Ha as [ta Hta], Hb as [tb Htb].
  unfold swap_pure. rewrite guard_ln_nsf.
  unfold ln_dest at 1, real_dir at 1. rewrite Hta.
  rewrite guard_ln_nsf. unfold ln_dest, real_dir.
  rewrite lookup_insert_ne by done. by rewrite Htb.
Qed.

End Redirect.

Lemma is_directory_target (fs : store) p out w :
  is_directory fs p = true →
  guard w (host_remote (ReadlinkF p) fs) = Some (out, fs) →
  realpath fs p = Some out ∧ fs !! out = Some Dir.
Proof.
  intros Hd Hg. unfold is_directory in Hd.
  destruct (readlink_store _ _ _ _ _ Hg) as [_ [Hr | [Hr _]]];
    rewrite Hr in Hd; [|done].
  split; [done |]. by destruct (fs !! out) as [[]|].
Qed.



(** ** The claims on the scenario of the specification *)

Lemma init_fresh_witness :
  ∃ s',
    init_bluegreen scenario = Ok tt s'
    ∧ Forall (λ d, world s' !! d = Some Dir)
        ["/srv/app"; "/srv/app/blue"; "/srv/app/green";
         "/srv/app/blue/etc"; "/srv/app/green/etc"]
    ∧ world s' !! "/srv/app/live" = Some (Link "/srv/app/blue")
    ∧ world s' !! "/srv/app/next" = Some (Link "/srv/app/green")
    ∧ points_to (world s') "/srv/app/live" = Some "/srv/app/blue"
    ∧ points_to (world s') "/srv/app/next" = Some "/srv/app/green"
    ∧ env s' !! "live_path" = Some (VStr "/srv/app/blue")
    ∧ env s' !! "next_path" = Some (VStr "/srv/app/green")
    ∧ env s' !! "color" = Some (VStr "green")
    ∧ env s' !! "bluegreen_port" = Some (VInt 8002).
Proof.
  exact (init_fresh scenario "/srv/app"
           (<["blue" := 8001%Z]> (<["green" := 8002%Z]> ∅))
           eq_refl eq_refl (insert_non_empty _ _ _) eq_refl eq_refl
           eq_refl).
Defined.

Lemma init_idempotent_witness :
  ∃ s2,
    init_bluegreen scenario_ready = Ok tt s2
    ∧ env s2 = env scenario_ready
    ∧ world s2 = world scenario_ready.
Proof.
  apply (init_idempotent scenario scenario_ready "/srv/app").
  - reflexivity.
  - reflexivity.
  - vm_compute. reflexivity.
Defined.

Lemma swap_twice_same_witness :
  ∃ s2,
    swap_bluegreen scenario_swapped = Ok tt s2
    ∧ world s2 = world scenario_swapped
    ∧ points_to (world s2) "/srv/app/live" = Some "/srv/app/green".
Proof.
  destruct (swap_twice_same scenario_ready scenario_swapped)
    as (n & l & la & na & s2 & H2 & _ & _ & Hw & _).
  - vm_compute. reflexivity.
  - exists s2. split; [exact H2 |]. split; [exact Hw |].
    rewrite Hw. vm_compute. reflexivity.
Defined.


(** ** The seeding claims on scripted working copies *)

Lemma git_is_dirty_spec_witness :
  git_is_dirty false
    (State (<["gitric_allow_dirty" := VBool true]> connection)
       (working_copy "M api.py" "* main" false) [])
  = Ok false
      (State (<["gitric_allow_dirty" := VBool true]> connection)
         (working_copy "M api.py" "* main" false) [])
  ∧ ∃ dirty,
      git_is_dirty false
        (State connection (working_copy "M api.py" "* main" false) [])
      = Ok dirty
          (State connection (working_copy "M api.py" "* main" false)
             [ELocal "git status  --porcelain"])
      ∧ (dirty = true ↔ "M api.py" ≠ "").
Proof.
  split.
  - apply (proj1 (git_is_dirty_spec false _)).
    exists (VBool true). reflexivity.
  - apply (proj1 (proj2 (git_is_dirty_spec false
             (State connection (working_copy "M api.py" "* main" false) [])))
             eq_refl (Reply "M api.py" false)
             (working_copy "M api.py" "* main" false));
      [reflexivity | left; reflexivity].
Defined.

Lemma seed_dirty_aborts_witness :
  let s := State connection (working_copy "M api.py" "* main" false) [] in
  let s' := State connection (working_copy "M api.py" "* main" false)
              [ELocal "git status  --porcelain"] in
  git_seed "/srv/repo" None None false false None None s
  = Err (Aborted dirty_msg) s'
  ∧ log s' = log s ++ [ELocal (status_line false)]
  ∧ remote_calls (log s') = remote_calls (log s)
  ∧ pushes (log s') = pushes (log s).
Proof.
  intros s s'.
  apply (seed_dirty_aborts "/srv/repo" None None false false None None s s').
  reflexivity.
Defined.

Lemma seed_branch_containment_witness :
  ∃ s5,
    git_seed "/srv/repo" None None false false None None off_branch
    = Err (Aborted "Can not push: commit abc123 is not in branch main") s5
    ∧ pushes (log s5) = [].
Proof.
  set (s3 := final_state
               (seed_commit "/srv/repo" None false false None off_branch)).
  assert (Hc : seed_commit "/srv/repo" None false false None off_branch
               = Ok "abc123" s3) by (vm_compute; reflexivity).
  set (s4 := final_state (git_current_branch_name s3)).
  assert (Hb : git_current_branch_name s3 = Ok "main" s4)
    by (vm_compute; reflexivity).
  destruct (seed_branch_containment "/srv/repo" None None false false None
              None off_branch "abc123" s3 Hc) as [Himplicit _].
  destruct (Himplicit eq_refl "main" s4 (Reply "  feature" false)
              (working_copy "" "  feature" false) Hb eq_refl
              (or_introl eq_refl)) as [Habort _].
  destruct (Habort eq_refl) as [Hseed Hpushes].
  eexists. split; [exact Hseed |]. exact Hpushes.
Defined.

Lemma seed_push_rejected_witness :
  ∃ s',
    git_seed "/srv/repo" None None false false None None rejected
    = Err (Aborted (non_fast_forward_msg "abc123")) s'
    ∧ pushes (log s')
      = [ELocal "git push git+ssh://deploy@example.org:22/srv/repo abc123:refs/heads/main "].
Proof.
  set (s3 := final_state
               (seed_resolved "/srv/repo" None None false false None None
                  rejected)).
  assert (Hr : seed_resolved "/srv/repo" None None false false None None
                 rejected = Ok ("abc123", "main", "deploy") s3)
    by (vm_compute; reflexivity).
  destruct (seed_push_rejected "/srv/repo" None None false false None None
              rejected "abc123" "main" "deploy" s3 (VStr "example.org")
              (VStr "22") (Reply "" true) (working_copy "" "* main" true) Hr)
    as (Hseed & _ & Hpushes); try reflexivity.
  eexists. split; [exact Hseed |]. exact Hpushes.
Defined.

Lemma seed_push_failure_ignores_force_witness :
  ∃ s',
    git_seed "/srv/repo" None None false false None None rejected_forced
    = Err (Aborted (non_fast_forward_msg "abc123")) s'
    ∧ pushes (log s')
      = [ELocal "git push git+ssh://deploy@example.org:22/srv/repo abc123:refs/heads/main -f"].
Proof.
  set (s3 := final_state
               (seed_resolved "/srv/repo" None None false false None None
                  rejected_forced)).
  assert (Hr : seed_resolved "/srv/repo" None None false false None None
                 rejected_forced = Ok ("abc123", "main", "deploy") s3)
    by (vm_compute; reflexivity).
  eexists. split.
  - apply (seed_push_failure_ignores_force "/srv/repo" None None false false
             None None rejected_forced "abc123" "main" "deploy" s3
             (VStr "example.org") (VStr "22") (Reply "" true)
             (working_copy "" "* main" true) Hr); reflexivity.
  - vm_compute. reflexivity.
Defined.

Lemma seed_push_line_witness :
  log (final_state
         (git_seed "/srv/repo" None None false false None None accepted))
  = log (final_state
           (seed_resolved "/srv/repo" None None false false None None accepted))
    ++ [ELocal "git push git+ssh://deploy@example.org:22/srv/repo abc123:refs/heads/main "].
Proof.
  set (s3 := final_state
               (seed_resolved "/srv/repo" None None false false None None
                  accepted)).
  assert (Hr : seed_resolved "/srv/repo" None None false false None None
                 accepted = Ok ("abc123", "main", "deploy") s3)
    by (vm_compute; reflexivity).
  assert (Hh : env s3 !! "host" = Some (VStr "example.org"))
    by (vm_compute; reflexivity).
  assert (Hp : env s3 !! "port" = Some (VStr "22"))
    by (vm_compute; reflexivity).
  destruct (seed_push_line "/srv/repo" None None false false None None
              accepted "abc123" "main" "deploy" s3 (VStr "example.org")
              (VStr "22") Hr Hh Hp) as [_ Hlog].
  exact Hlog.
Defined.

(** * Further properties of the seeding functions *)

Section Stability.
Context {W : Type} `{Executor W}.
Implicit Types (s : state W).

Lemma env_stable_ret {A} (a : A) : env_stable (W:=W) (ret a).
Proof. by intros s. Qed.

Lemma env_stable_fail {A} f : env_stable (@fail W A f).
Proof. by intros s. Qed.

Lemma env_stable_bind {A B} (m : M W A) (k : A → M W B) :
  env_stable m → (∀ a, env_stable (k a)) → env_stable (bind m k).
Proof.
  intros Hm Hk s. unfold bind. specialize (Hm s).
  destruct (m s) as [a s1|f s1]; simpl in *; [|done].
  by rewrite Hk.
Qed.

Lemma env_stable_env_has k : env_stable (W:=W) (env_has k).
Proof. by intros s. Qed.

Lemma env_stable_env_get k : env_stable (W:=W) (env_get k).
Proof. intros s. unfold env_get. by destruct (env s !! k). Qed.

Lemma env_stable_local line capture : env_stable (W:=W) (local line capture).
Proof.
  intros s. unfold local. destruct (exec_local line (world s)) as [r w].
  by destruct (failed r && negb (warn_only s)).
Qed.

Lemma env_stable_remote who quiet c : env_stable (W:=W) (remote who quiet c).
Proof.
  intros s. unfold remote.
  destruct (exec_remote who (cwd s) c (world s)) as [r w].
  by destruct (failed r && negb (quiet || warn_only s)).
Qed.

Lemma env_stable_settings {A} k v (body : M W A) :
  env_stable body → env_stable (settings k v body).
Proof.
  intros Hb s. unfold settings.
  specialize (Hb (State (<[k:=v]> (env s)) (world s) (log s))).
  destruct (body _) as [a s1|f s1]; simpl in *; rewrite Hb;
    apply settings_restore.
Qed.

Lemma env_stable_cd {A} path (body : M W A) :
  env_stable body → env_stable (cd path body).
Proof. intros Hb s. unfold cd. by apply env_stable_settings. Qed.

Lemma log_stable_ret {A} P (a : A) : log_stable (W:=W) P (ret a).
Proof. by intros s. Qed.

Lemma log_stable_fail {A} P f : log_stable P (@fail W A f).
Proof. by intros s. Qed.

Lemma log_stable_bind {A B} P (m : M W A) (k : A → M W B) :
  log_stable P m → (∀ a, log_stable P (k a)) → log_stable P (bind m k).
Proof.
  intros Hm Hk s. unfold bind. specialize (Hm s).
  destruct (m s) as [a s1|f s1]; simpl in *; [|done].
  by rewrite Hk.
Qed.

Lemma log_stable_env_has P k : log_stable (W:=W) P (env_has k).
Proof. by intros s. Qed.

Lemma log_stable_env_get P k : log_stable (W:=W) P (env_get k).
Proof. intros s. unfold env_get. by destruct (env s !! k). Qed.

Lemma log_stable_local P line capture :
  P (ELocal line) = false → log_stable (W:=W) P (local line capture).
Proof.
  intros HP s. unfold local. destruct (exec_local line (world s)) as [r w].
  destruct (failed r && negb (warn_only s)); simpl;
    rewrite List.filter_app; simpl; rewrite HP; apply app_nil_r.
Qed.

Lemma log_stable_remote P who quiet c :
  (∀ d, P (ERemote who d c) = false) → log_stable (W:=W) P (remote who quiet c).
Proof.
  intros HP s. unfold remote.
  destruct (exec_remote who (cwd s) c (world s)) as [r w].
  destruct (failed r && negb (quiet || warn_only s)); simpl;
    rewrite List.filter_app; simpl; rewrite HP; apply app_nil_r.
Qed.

Lemma log_stable_settings {A} P k v (body : M W A) :
  log_stable P body → log_stable P (settings k v body).
Proof.
  intros Hb s. unfold settings.
  specialize (Hb (State (<[k:=v]> (env s)) (world s) (log s))).
  by destruct (body _) as [a s1|f s1].
Qed.

Lemma log_stable_cd {A} P path (body : M W A) :
  log_stable P body → log_stable P (cd path body).
Proof. intros Hb s. unfold cd. by apply log_stable_settings. Qed.

End Stability.

Section SeederMore.
Context {W : Type} `{Executor W}.
Implicit Types (s : state W) (r : reply).

Lemma env_stable_do us su q c : env_stable (W:=W) (_do us su q c).
Proof. unfold _do. destruct us; apply env_stable_remote. Qed.

Lemma env_stable_git_init repo us su : env_stable (W:=W) (git_init repo us su).
Proof.
  assert (Hconf : env_stable (W:=W)
    (do! _do us su false (Git "config receive.denyCurrentBranch ignore") in
     ret tt)).
  { apply env_stable_bind; [apply env_stable_do | intros; apply env_stable_ret]. }
  unfold git_init. apply env_stable_bind.
  - apply env_stable_bind; [apply env_stable_remote | intros; apply env_stable_ret].
  - intros []; [exact Hconf |].
    apply env_stable_bind; [apply env_stable_do |]. intros _.
    apply env_stable_cd, env_stable_bind; [apply env_stable_do | intros; exact Hconf].
Qed.

Lemma env_stable_git_is_dirty iu : env_stable (W:=W) (git_is_dirty iu).
Proof.
  apply env_stable_bind; [apply env_stable_env_has |].
  intros []; [apply env_stable_ret |].
  apply env_stable_bind; [apply env_stable_local | intros; apply env_stable_ret].
Qed.

Lemma env_stable_resolve_commit commit : env_stable (W:=W) (resolve_commit commit).
Proof.
  unfold resolve_commit. destruct (given commit); [apply env_stable_ret |].
  apply env_stable_bind; [apply env_stable_local | intros; apply env_stable_ret].
Qed.

Lemma env_stable_resolve_branch c rb : env_stable (W:=W) (resolve_branch c rb).
Proof.
  unfold resolve_branch. destruct (given rb); [apply env_stable_ret |].
  apply env_stable_bind.
  { apply env_stable_bind; [apply env_stable_local | intros; apply env_stable_ret]. }
  intros b. apply env_stable_bind; [apply env_stable_local |].
  intros listing. destruct (negb _); [apply env_stable_fail | apply env_stable_ret].
Qed.

Lemma env_stable_resolve_user ru su : env_stable (W:=W) (resolve_user ru su).
Proof.
  unfold resolve_user. destruct (given ru); [apply env_stable_ret |].
  destruct (given su); [apply env_stable_ret |].
  apply env_stable_bind; [apply env_stable_env_get | intros; apply env_stable_ret].
Qed.

Lemma env_stable_push repo c b u : env_stable (W:=W) (push repo c b u).
Proof.
  unfold push. apply env_stable_settings.
  apply env_stable_bind; [apply env_stable_env_has |]. intros forced.
  apply env_stable_bind; [apply env_stable_env_get |]. intros host.
  apply env_stable_bind; [apply env_stable_env_get |]. intros port.
  apply env_stable_local.
Qed.

Lemma env_stable_seed_resolved repo commit rb iu us su ru :
  env_stable (W:=W) (seed_resolved repo commit rb iu us su ru).
Proof.
  unfold seed_resolved, seed_commit.
  apply env_stable_bind.
  { apply env_stable_bind; [apply env_stable_git_is_dirty |]. intros d.
    apply env_stable_bind;
      [destruct d; [apply env_stable_fail | apply env_stable_ret] |].
    intros _. apply env_stable_bind; [apply env_stable_git_init |].
    intros _. apply env_stable_resolve_commit. }
  intros c. apply env_stable_bind; [apply env_stable_resolve_branch |].
  intros b. apply env_stable_bind; [apply env_stable_resolve_user |].
  intros u. apply env_stable_ret.
Qed.

(** X3. [git_init], [git_reset] and [git_seed] leave [env] as they found
    it, whatever the outcome: the working directory set by [cd] and the
    [warn_only] set around the push are put back also when the function
    aborts. *)
Theorem seeding_keeps_env repo commit rb iu us su ru s :
  env (final_state (git_init repo us su s)) = env s
  ∧ env (final_state (git_reset repo commit us su s)) = env s
  ∧ env (final_state (git_seed repo commit rb iu us su ru s)) = env s.
Proof.
  split; [apply env_stable_git_init |]. split.
  - revert s. unfold git_reset.
    apply env_stable_bind; [apply env_stable_resolve_commit |]. intros c.
    apply env_stable_cd, env_stable_bind;
      [apply env_stable_do | intros; apply env_stable_ret].
  - revert s. unfold git_seed.
    apply env_stable_bind; [apply env_stable_git_is_dirty |]. intros d.
    apply env_stable_bind;
      [destruct d; [apply env_stable_fail | apply env_stable_ret] |].
    intros _. apply env_stable_bind; [apply env_stable_git_init |].
    intros _. apply env_stable_bind; [apply env_stable_resolve_commit |].
    intros c. apply env_stable_bind; [apply env_stable_resolve_branch |].
    intros b. apply env_stable_bind; [apply env_stable_resolve_user |].
    intros u. apply env_stable_bind; [apply env_stable_push |].
    intros pushed. destruct (failed pushed);
      [apply env_stable_fail | apply env_stable_ret].
Qed.


(** *** What reaches the log *)

Lemma no_push_status iu : is_push (ELocal (status_line iu)) = false.
Proof. by destruct iu. Qed.

Lemma log_stable_do P us su q c :
  (∀ who d, P (ERemote who d c) = false) → log_stable (W:=W) P (_do us su q c).
Proof. intros HP. unfold _do. destruct us; by apply log_stable_remote. Qed.

Lemma log_stable_git_init P repo us su :
  (∀ who d c, P (ERemote who d c) = false) →
  log_stable (W:=W) P (git_init repo us su).
Proof.
  intros HP.
  assert (Hconf : log_stable (W:=W) P
    (do! _do us su false (Git "config receive.denyCurrentBranch ignore") in
     ret tt)).
  { apply log_stable_bind; [by apply log_stable_do | intros; apply log_stable_ret]. }
  unfold git_init. apply log_stable_bind.
  - apply log_stable_bind; [by apply log_stable_remote | intros; apply log_stable_ret].
  - intros []; [exact Hconf |].
    apply log_stable_bind; [by apply log_stable_do |]. intros _.
    apply log_stable_cd, log_stable_bind;
      [by apply log_stable_do | intros; exact Hconf].
Qed.

Lemma log_stable_resolve_commit P commit :
  P (ELocal "git rev-parse HEAD") = false →
  log_stable (W:=W) P (resolve_commit commit).
Proof.
  intros HP. unfold resolve_commit. destruct (given commit);
    [apply log_stable_ret |].
  apply log_stable_bind; [by apply log_stable_local | intros; apply log_stable_ret].
Qed.

Lemma log_stable_resolve_branch P c rb :
  P (ELocal "git rev-parse --abbrev-ref HEAD") = false →
  P (ELocal (contains_line c)) = false →
  log_stable (W:=W) P (resolve_branch c rb).
Proof.
  intros H1 H2. unfold resolve_branch. destruct (given rb);
    [apply log_stable_ret |].
  apply log_stable_bind.
  { apply log_stable_bind; [by apply log_stable_local | intros; apply log_stable_ret]. }
  intros b. apply log_stable_bind; [by apply log_stable_local |].
  intros listing. destruct (negb _); [apply log_stable_fail | apply log_stable_ret].
Qed.

Lemma log_stable_resolve_user P ru su : log_stable (W:=W) P (resolve_user ru su).
Proof.
  unfold resolve_user. destruct (given ru); [apply log_stable_ret |].
  destruct (given su); [apply log_stable_ret |].
  apply log_stable_bind; [apply log_stable_env_get | intros; apply log_stable_ret].
Qed.

Lemma log_stable_git_is_dirty P iu :
  P (ELocal (status_line iu)) = false → log_stable (W:=W) P (git_is_dirty iu).
Proof.
  intros HP. apply log_stable_bind; [apply log_stable_env_has |].
  intros []; [apply log_stable_ret |].
  apply log_stable_bind; [by apply log_stable_local | intros; apply log_stable_ret].
Qed.

Lemma log_stable_seed_resolved repo commit rb iu us su ru :
  log_stable (W:=W) is_push (seed_resolved repo commit rb iu us su ru).
Proof.
  unfold seed_resolved, seed_commit.
  apply log_stable_bind.
  { apply log_stable_bind;
      [apply log_stable_git_is_dirty, no_push_status |]. intros d.
    apply log_stable_bind;
      [destruct d; [apply log_stable_fail | apply log_stable_ret] |].
    intros _. apply log_stable_bind; [by apply log_stable_git_init |].
    intros _. by apply log_stable_resolve_commit. }
  intros c. apply log_stable_bind; [by apply log_stable_resolve_branch |].
  intros b. apply log_stable_bind; [apply log_stable_resolve_user |].
  intros u. apply log_stable_ret.
Qed.

(** X5. Whatever stops a seed before the push (a dirty copy, a failing
    remote or local command, a commit outside the branch, a missing
    [env.user]) is the failure [git_seed] ends with, in the same state, and
    no push was issued. *)
Theorem seed_fails_before_push repo commit rb iu us su ru s f s' :
  seed_resolved repo commit rb iu us su ru s = Err f s' →
  git_seed repo commit rb iu us su ru s = Err f s'
  ∧ pushes (log s') = pushes (log s).
Proof.
  intros Hr. split.
  - revert Hr. unfold seed_resolved, seed_commit, git_seed, bind.
    destruct (git_is_dirty iu s) as [d s1|]; simpl;
      [| by intros [= -> ->]].
    destruct d; simpl; [by intros [= -> ->] |].
    destruct (git_init repo us su s1) as [[] s2|]; simpl;
      [| by intros [= -> ->]].
    destruct (resolve_commit commit s2) as [c s3|]; simpl;
      [| by intros [= -> ->]].
    destruct (resolve_branch c rb s3) as [b s4|]; simpl;
      [| by intros [= -> ->]].
    destruct (resolve_user ru su s4) as [u s5|]; simpl;
      [| by intros [= -> ->]].
    unfold ret. discriminate.
  - pose proof (log_stable_seed_resolved repo commit rb iu us su ru s) as Hl.
    by rewrite Hr in Hl.
Qed.

(** X6. Every command [git_seed] sends to the remote host is sent by
    [git_init]: after the dirty check, the remote calls in the log of the
    whole seed are those in the log [git_init] leaves, and the check itself
    adds none. *)
Theorem seed_remote_calls_are_git_init repo commit rb iu us su ru s s1 :
  git_is_dirty iu s = Ok false s1 →
  remote_calls (log s1) = remote_calls (log s)
  ∧ remote_calls (log (final_state (git_seed repo commit rb iu us su ru s)))
    = remote_calls (log (final_state (git_init repo us su s1))).
Proof.
  intros Hd. split.
  { pose proof (log_stable_git_is_dirty is_remote iu eq_refl s) as Hl.
    by rewrite Hd in Hl. }
  unfold git_seed. rewrite (bind_ok _ _ _ _ _ Hd). cbv beta iota.
  unfold bind at 1. unfold ret at 1. unfold bind at 1.
  destruct (git_init repo us su s1) as [[] s2|f s2]; [|done]. cbn [final_state].
  revert s2. change (log_stable is_remote
    (let! c := resolve_commit commit in
     let! b := resolve_branch c rb in
     let! u := resolve_user ru su in
     let! pushed := push repo c b u in
     if failed pushed then abort (non_fast_forward_msg c) else ret tt)).
  apply log_stable_bind; [by apply log_stable_resolve_commit |]. intros c.
  apply log_stable_bind; [by apply log_stable_resolve_branch |]. intros b.
  apply log_stable_bind; [apply log_stable_resolve_user |]. intros u.
  apply log_stable_bind.
  { unfold push. apply log_stable_settings.
    apply log_stable_bind; [apply log_stable_env_has |]. intros forced.
    apply log_stable_bind; [apply log_stable_env_get |]. intros host.
    apply log_stable_bind; [apply log_stable_env_get |]. intros port.
    by apply log_stable_local. }
  intros pushed. destruct (failed pushed);
    [apply log_stable_fail | apply log_stable_ret].
Qed.


(** *** [git_init] and [git_reset], command by command *)

Lemma remote_run who quiet c s r w :
  exec_remote who (cwd s) c (world s) = (r, w) →
  remote who quiet c s
  = let s' := State (env s) w (log s ++ [ERemote who (cwd s) c]) in
    if failed r && negb (quiet || warn_only s)
    then Err (CommandFailed (render c)) s' else Ok r s'.
Proof. intros Hx. unfold remote. by rewrite Hx. Qed.

Lemma do_is_remote (us : bool) su quiet c :
  _do us su quiet c
  = remote (W:=W) (if us then Some su else None) quiet c.
Proof. by destruct us. Qed.

Lemma exists_run path (us : bool) s r w :
  exec_remote (if us then Some None else None) (cwd s) (TestE path) (world s)
  = (r, w) →
  exists_ path us s
  = Ok (negb (failed r))
      (State (env s) w
         (log s ++ [ERemote (if us then Some None else None) (cwd s)
                      (TestE path)])).
Proof.
  intros Hx. unfold exists_, bind. rewrite (remote_run _ _ _ _ _ _ Hx).
  cbv zeta. by rewrite andb_false_r.
Qed.

(** X1. When [test -e repo/.git] succeeds, [git_init] issues one more
    command and nothing else: [git config receive.denyCurrentBranch ignore],
    in the directory the caller is in (not in [repo_path]), with [sudo] as
    [sudo_user] exactly when [use_sudo] is set.  It neither creates the
    directory nor runs [git init]; outside warn-only mode a failing
    [git config] is the failure of [git_init]. *)
Theorem git_init_existing repo (us : bool) su s r1 w1 r2 w2 :
  let probe : elevation := if us then Some None else None in
  let who : elevation := if us then Some su else None in
  exec_remote probe (cwd s) (TestE (repo +:+ "/.git")) (world s) = (r1, w1) →
  failed r1 = false →
  exec_remote who (cwd s) (Git config_line) w1 = (r2, w2) →
  let s' :=
    State (env s) w2
      (log s ++
       [ERemote probe (cwd s) (TestE (repo +:+ "/.git"));
        ERemote who (cwd s) (Git config_line)]) in
  git_init repo us su s
  = if failed r2 && negb (warn_only s)
    then Err (CommandFailed ("git " +:+ config_line)) s'
    else Ok tt s'.
Proof.
  intros probe who H1 Hf H2 s'. subst s'. unfold git_init.
  rewrite (bind_ok _ _ _ _ _ (exists_run _ _ _ _ _ H1)). rewrite Hf.
  cbn [negb]. unfold bind. rewrite do_is_remote.
  erewrite remote_run by exact H2. cbv zeta. cbn [env world log orb].
  replace (warn_only (State (env s) w1 _)) with (warn_only s) by reflexivity.
  rewrite <- app_assoc.
  by destruct (failed r2 && negb (warn_only s)).
Qed.

(** X2. When [test -e repo/.git] fails, [git_init] runs [mkdir -p repo],
    whose failure is ignored, then [git init] and [git config], both
    inside [repo_path]; when those two succeed it returns with [env] as
    before. *)
Theorem git_init_creates repo (us : bool) su s r1 w1 r2 w2 r3 w3 r4 w4 :
  let probe : elevation := if us then Some None else None in
  let who : elevation := if us then Some su else None in
  let there := cd_target (cwd s) repo in
  exec_remote probe (cwd s) (TestE (repo +:+ "/.git")) (world s) = (r1, w1) →
  failed r1 = true →
  exec_remote who (cwd s) (MkdirP [repo]) w1 = (r2, w2) →
  exec_remote who there (Git "init") w2 = (r3, w3) →
  failed r3 = false →
  exec_remote who there (Git config_line) w3 = (r4, w4) →
  failed r4 = false →
  git_init repo us su s
  = Ok tt
      (State (env s) w4
         (log s ++
          [ERemote probe (cwd s) (TestE (repo +:+ "/.git"));
           ERemote who (cwd s) (MkdirP [repo]);
           ERemote who there (Git "init");
           ERemote who there (Git config_line)])).
Proof.
  intros probe who there H1 Hf1 H2 H3 Hf3 H4 Hf4. unfold git_init.
  rewrite (bind_ok _ _ _ _ _ (exists_run _ _ _ _ _ H1)). rewrite Hf1.
  cbn [negb]. rewrite !do_is_remote. fold who.
  unfold bind at 1. erewrite remote_run by exact H2. cbv zeta.
  cbn [orb negb]. rewrite andb_false_r.
  unfold cd, settings. cbn [env world log].
  replace (cwd (State (env s) w2 _)) with (cwd s) by reflexivity.
  fold (cd_target (cwd s) repo). fold there.
  assert (Hcwd : ∀ (w : W) l, cwd (State (<["cwd" := VStr there]> (env s)) w l) = there).
  { intros w l. unfold cwd. simpl. by rewrite lookup_insert_eq. }
  unfold bind at 1. erewrite remote_run by (rewrite Hcwd; exact H3).
  cbv zeta. rewrite Hf3. cbn [andb]. unfold bind.
  erewrite remote_run by (rewrite Hcwd; exact H4).
  cbv zeta. rewrite Hf4. cbn [andb env world log]. unfold ret.
  cbn [env world log].
  assert (Hcwd0 : ∀ (w : W) l, cwd (State (env s) w l) = cwd s) by done.
  rewrite !Hcwd, !Hcwd0.
  rewrite (settings_restore (env s) "cwd" (VStr there)).
  by rewrite <- !app_assoc.
Qed.

Lemma git_reset_after_commit repo commit (us : bool) su s c s1 r w :
  let who : elevation := if us then Some su else None in
  let there := cd_target (cwd s1) repo in
  resolve_commit commit s = Ok c s1 →
  exec_remote who there (Git ("reset --hard " +:+ c)) (world s1) = (r, w) →
  let s' :=
    State (env s1) w
      (log s1 ++ [ERemote who there (Git ("reset --hard " +:+ c))]) in
  git_reset repo commit us su s
  = if failed r && negb (warn_only s1)
    then Err (CommandFailed ("git reset --hard " +:+ c)) s'
    else Ok tt s'.
Proof.
  intros who there Hc Hx s'. subst s'. unfold git_reset.
  rewrite (bind_ok _ _ _ _ _ Hc). rewrite do_is_remote. fold who.
  unfold cd, settings. fold (cd_target (cwd s1) repo). fold there.
  assert (Hcwd : ∀ (w : W) l, cwd (State (<["cwd" := VStr there]> (env s1)) w l) = there).
  { intros w' l. unfold cwd. simpl. by rewrite lookup_insert_eq. }
  assert (Hwarn : ∀ (w' : W) l,
    warn_only (State (<["cwd" := VStr there]> (env s1)) w' l) = warn_only s1).
  { intros w' l. unfold warn_only. simpl. by rewrite lookup_insert_ne. }
  unfold bind. erewrite remote_run by (rewrite Hcwd; exact Hx).
  cbv zeta. rewrite Hwarn, Hcwd. cbn [orb].
  pose proof (settings_restore (env s1) "cwd" (VStr there)) as Hre.
  destruct (failed r && negb (warn_only s1)); cbn [env world log];
    unfold ret; cbn [env world log]; by rewrite Hre.
Qed.

(** X7. [git_reset] with a commit supplied ([None] and the empty string
    are not) sends one command and nothing else: [git reset --hard
    <commit>] for that very commit, inside [repo_path], with [sudo] as
    [sudo_user] exactly when [use_sudo] is set.  With no commit supplied
    it first runs [git rev-parse HEAD] locally; when that fails outside
    warn-only mode nothing is sent to the host, and otherwise the commit
    reset to is what it printed.  Outside warn-only mode a failing reset
    is the failure of [git_reset]; [env] is as before in every case. *)
Theorem git_reset_runs repo commit (us : bool) su s :
  let who : elevation := if us then Some su else None in
  let there := cd_target (cwd s) repo in
  (∀ c r w,
     commit = Some c → c ≠ "" →
     exec_remote who there (Git ("reset --hard " +:+ c)) (world s) = (r, w) →
     let s' :=
       State (env s) w
         (log s ++ [ERemote who there (Git ("reset --hard " +:+ c))]) in
     git_reset repo commit us su s
     = if failed r && negb (warn_only s)
       then Err (CommandFailed ("git reset --hard " +:+ c)) s'
       else Ok tt s')
  ∧ (∀ r0 w0,
       commit = None ∨ commit = Some "" →
       exec_local "git rev-parse HEAD" (world s) = (r0, w0) →
       (failed r0 = true → warn_only s = false →
        git_reset repo commit us su s
        = Err (CommandFailed "git rev-parse HEAD")
            (State (env s) w0 (log s ++ [ELocal "git rev-parse HEAD"])))
       ∧ (failed r0 = false ∨ warn_only s = true →
          ∀ r w,
            exec_remote who there (Git ("reset --hard " +:+ stdout r0)) w0
            = (r, w) →
            let s' :=
              State (env s) w
                (log s ++
                 [ELocal "git rev-parse HEAD";
                  ERemote who there (Git ("reset --hard " +:+ stdout r0))]) in
            git_reset repo commit us su s
            = if failed r && negb (warn_only s)
              then Err (CommandFailed ("git reset --hard " +:+ stdout r0)) s'
              else Ok tt s')).
Proof.
  intros who there. split.
  - intros c r w -> Hc Hx s'. subst s'.
    assert (Hr : resolve_commit (Some c) s = Ok c s).
    { unfold resolve_commit, given.
      by rewrite (proj2 (String.eqb_neq c "") Hc). }
    exact (git_reset_after_commit repo (Some c) us su s c s r w Hr Hx).
  - intros r0 w0 Hnone Hx0.
    assert (Hg : given commit = None) by (by destruct Hnone as [-> | ->]).
    split.
    + intros Hf Hw. unfold git_reset, resolve_commit. rewrite Hg.
      unfold git_head_rev, bind, local. rewrite Hx0, Hf, Hw. reflexivity.
    + intros Hok r w Hx s'. subst s'.
      assert (Hr : resolve_commit commit s
                   = Ok (stdout r0)
                       (State (env s) w0
                          (log s ++ [ELocal "git rev-parse HEAD"]))).
      { unfold resolve_commit. rewrite Hg. unfold git_head_rev.
        by rewrite (bind_ok _ _ _ _ _ (local_ok _ true _ _ _ Hx0 Hok)). }
      pose proof (git_reset_after_commit repo commit us su s _ _ r w Hr Hx)
        as Hrun.
      cbn [env world log] in Hrun. rewrite <- app_assoc in Hrun. exact Hrun.
Qed.

End SeederMore.

Section SeederOrder.
Context {W : Type} `{Executor W}.
Implicit Types (s : state W) (r : reply).

Lemma local_calls_app l1 l2 :
  local_calls (l1 ++ l2) = local_calls l1 ++ local_calls l2.
Proof. apply List.filter_app. Qed.

Lemma push_inv repo c b u s pushed s' :
  push repo c b u s = Ok pushed s' →
  ∃ h p r w,
    env s !! "host" = Some h
    ∧ env s !! "port" = Some p
    ∧ exec_local (push_line u (str h) (str p) repo c b (force_flag s))
        (world s) = (r, w)
    ∧ pushed = Reply "" (failed r)
    ∧ s' = State (env s) w
             (log s ++ [ELocal (push_line u (str h) (str p) repo c b
                                  (force_flag s))]).
Proof.
  intros Hp.
  destruct (env s !! "host") as [h|] eqn:Hh.
  2: { exfalso. revert Hp. unfold push, settings, bind, env_has, env_get.
       simpl. rewrite lookup_insert_ne by done. by rewrite Hh. }
  destruct (env s !! "port") as [p|] eqn:Hport.
  2: { exfalso. revert Hp. unfold push, settings, bind, env_has, env_get.
       simpl. rewrite lookup_insert_ne by done. rewrite Hh. simpl.
       rewrite lookup_insert_ne by done. by rewrite Hport. }
  destruct (exec_local (push_line u (str h) (str p) repo c b (force_flag s))
              (world s)) as [r w] eqn:Hx.
  rewrite (push_runs _ _ _ _ _ _ _ _ _ Hh Hport Hx) in Hp.
  injection Hp as <- <-. by exists h, p, r, w.
Qed.

Lemma git_seed_ok_inv repo commit rb iu us su ru s s' :
  git_seed repo commit rb iu us su ru s = Ok tt s' →
  ∃ c b u s3 h p r,
    seed_resolved repo commit rb iu us su ru s = Ok (c, b, u) s3
    ∧ env s3 !! "host" = Some h
    ∧ env s3 !! "port" = Some p
    ∧ exec_local (push_line u (str h) (str p) repo c b (force_flag s3))
        (world s3) = (r, world s')
    ∧ failed r = false
    ∧ env s' = env s3
    ∧ log s' = log s3 ++ [ELocal (push_line u (str h) (str p) repo c b
                                    (force_flag s3))].
Proof.
  intros Hok.
  destruct (seed_resolved repo commit rb iu us su ru s)
    as [[[c b] u] s3|f s3] eqn:Hr.
  - rewrite (git_seed_after_resolved _ _ _ _ _ _ _ _ _ _ _ _ Hr) in Hok.
    apply bind_inv in Hok as (pushed & s4 & Hp & Hk).
    apply push_inv in Hp as (h & p & r & w & Hh & Hport & Hx & -> & ->).
    simpl in Hk. destruct (failed r) eqn:Hf; [discriminate |].
    injection Hk as <-. by exists c, b, u, s3, h, p, r.
  - exfalso. revert Hr Hok. unfold seed_resolved, seed_commit, git_seed, bind.
    destruct (git_is_dirty iu s) as [d s1|]; simpl; [| discriminate].
    destruct d; simpl; [discriminate |].
    destruct (git_init repo us su s1) as [[] s2|]; simpl; [| discriminate].
    destruct (resolve_commit commit s2) as [c s3'|]; simpl; [| discriminate].
    destruct (resolve_branch c rb s3') as [b s4|]; simpl; [| discriminate].
    destruct (resolve_user ru su s4) as [u s5|]; simpl; discriminate.
Qed.

(** X4. [git_seed] returns only after a push that did not fail: the
    stages before the push went through, [env.host] and [env.port] are
    set, the last command in the log is that push, the one push of this
    seed, and [env] is as it was before the seed. *)
Theorem seed_returns_after_push repo commit rb iu us su ru s s' :
  git_seed repo commit rb iu us su ru s = Ok tt s' →
  ∃ c b u s3 h p r,
    seed_resolved repo commit rb iu us su ru s = Ok (c, b, u) s3
    ∧ env s !! "host" = Some h
    ∧ env s !! "port" = Some p
    ∧ exec_local (push_line u (str h) (str p) repo c b (force_flag s))
        (world s3) = (r, world s')
    ∧ failed r = false
    ∧ log s' = log s3 ++ [ELocal (push_line u (str h) (str p) repo c b
                                    (force_flag s))]
    ∧ pushes (log s')
      = pushes (log s) ++ [ELocal (push_line u (str h) (str p) repo c b
                                     (force_flag s))]
    ∧ env s' = env s.
Proof.
  intros Hok.
  destruct (git_seed_ok_inv _ _ _ _ _ _ _ _ _ Hok)
    as (c & b & u & s3 & h & p & r & Hr & Hh & Hp & Hx & Hf & He & Hl).
  pose proof (env_stable_seed_resolved repo commit rb iu us su ru s) as Henv.
  rewrite Hr in Henv. simpl in Henv.
  assert (Hflag : force_flag s3 = force_flag s)
    by (unfold force_flag; by rewrite Henv).
  rewrite Hflag in Hx, Hl. rewrite Henv in Hh, Hp, He.
  exists c, b, u, s3, h, p, r. repeat (split; [done |]). split; [|done].
  rewrite Hl, pushes_app.
  pose proof (log_stable_seed_resolved repo commit rb iu us su ru s) as Hs.
  rewrite Hr in Hs. simpl in Hs. unfold pushes at 1. by rewrite Hs.
Qed.

Lemma git_init_local_calls repo us su s :
  local_calls (log (final_state (git_init repo us su s)))
  = local_calls (log s).
Proof. by apply (log_stable_git_init is_local). Qed.

(** X8. Left to its defaults (no commit, no branch, no override), a seed
    that returns has run these local commands, in this order: the status
    query, [git rev-parse HEAD], [git rev-parse --abbrev-ref HEAD],
    [git branch --contains] for the commit the first printed, and the
    push of that commit to the branch the second printed, whose starred
    name is in the listing. *)
Theorem seed_local_commands repo iu us su ru s s' :
  env s !! "gitric_allow_dirty" = None →
  git_seed repo None None iu us su ru s = Ok tt s' →
  ∃ c b u h p,
    local_calls (log s')
    = local_calls (log s) ++
      [ELocal (status_line iu);
       ELocal "git rev-parse HEAD";
       ELocal "git rev-parse --abbrev-ref HEAD";
       ELocal (contains_line c);
       ELocal (push_line u h p repo c b (force_flag s))].
Proof.
  intros Hno Hok.
  destruct (git_seed_ok_inv _ _ _ _ _ _ _ _ _ Hok)
    as (c & b & u & s5 & h & p & r & Hr & Hh & Hp & Hx & Hf & He & Hl).
  pose proof (env_stable_seed_resolved repo None None iu us su ru s) as Henv.
  rewrite Hr in Henv. simpl in Henv.
  assert (Hflag : force_flag s5 = force_flag s)
    by (unfold force_flag; by rewrite Henv).
  rewrite Hflag in Hl.
  exists c, b, u, (str h), (str p). rewrite Hl, local_calls_app.
  clear Hok Hx Hl Hh Hp He Henv Hflag.
  unfold seed_resolved, seed_commit in Hr.
  apply bind_inv in Hr as (c' & s3 & Hc & Hr).
  apply bind_inv in Hr as (b' & s4 & Hb & Hr).
  apply bind_inv in Hr as (u' & s5' & Hu & Hr).
  injection Hr as -> -> -> ->.
  apply resolve_user_inv in Hu as [-> _].
  apply bind_inv in Hc as (d & s1 & Hd & Hc).
  apply bind_inv in Hc as ([] & s1' & Hab & Hc).
  destruct d; [discriminate |]. injection Hab as <-.
  apply bind_inv in Hc as ([] & s2 & Hi & Hc).
  unfold git_is_dirty, bind, env_has in Hd. rewrite Hno in Hd.
  rewrite bool_decide_eq_false_2 in Hd by (intros [? ?]; discriminate).
  destruct (local (status_line iu) true s) as [r0 s0|] eqn:Hst;
    [| discriminate].
  injection Hd as _ ->.
  apply local_inv in Hst as (rs & ws & _ & _ & _ & ->).
  pose proof (git_init_local_calls repo us su
    (State (env s) ws (log s ++ [ELocal (status_line iu)]))) as Hgi.
  rewrite Hi in Hgi. cbn [final_state log] in Hgi.
  unfold resolve_commit in Hc. cbn [given] in Hc.
  unfold git_head_rev in Hc.
  apply bind_inv in Hc as (rc & s3' & Hrc & Hc). injection Hc as <- <-.
  apply local_inv in Hrc as (? & ? & _ & _ & -> & ->).
  unfold resolve_branch in Hb. cbn [given] in Hb.
  apply bind_inv in Hb as (b0 & s6 & Hb0 & Hb).
  unfold git_current_branch_name in Hb0.
  apply bind_inv in Hb0 as (rb0 & s6' & Hrb & Hb0). injection Hb0 as <- <-.
  apply local_inv in Hrb as (? & ? & _ & _ & -> & ->).
  apply bind_inv in Hb as (ls & s7 & Hls & Hb).
  apply local_inv in Hls as (? & ? & _ & _ & -> & ->).
  destruct (negb _); [discriminate |]. injection Hb as <- <-.
  cbn [log stdout]. rewrite !local_calls_app, Hgi, local_calls_app.
  cbn. by rewrite <- !app_assoc.
Qed.

(** X9. Once the allow-dirty override is in [env], whatever it is bound
    to, [ignore_untracked_files] has no effect on a seed. *)
Theorem seed_override_ignores_untracked repo commit rb us su ru s v :
  env s !! "gitric_allow_dirty" = Some v →
  git_seed repo commit rb true us su ru s
  = git_seed repo commit rb false us su ru s.
Proof.
  intros Hv.
  assert (Hd : ∀ iu, git_is_dirty iu s = Ok false s).
  { intros iu. unfold git_is_dirty, bind, env_has. by rewrite Hv. }
  unfold git_seed. by rewrite !(bind_ok _ _ _ _ _ (Hd _)).
Qed.

End SeederOrder.

(** * Further properties of the blue/green functions *)

Section Missing.
Context {W : Type} `{Executor W}.
Implicit Types (s : state W).

Lemma require_missing keys s k :
  k ∈ keys → provided (env s) k = false →
  require keys s
  = Err (MissingState (filter (λ k, provided (env s) k = false) keys)) s
  ∧ k ∈ filter (λ k, provided (env s) k = false) keys.
Proof.
  intros Hk Hp.
  assert (Hin : k ∈ filter (λ k, provided (env s) k = false) keys)
    by by apply list_elem_of_filter.
  split; [|done]. unfold require.
  destruct (filter _ keys) as [|k0 ks]; [|done].
  by apply not_elem_of_nil in Hin.
Qed.

(** X10. [init_bluegreen] called with [env.bluegreen_root] or
    [env.bluegreen_ports] missing (absent, or bound to an empty mapping)
    stops at [require]: the failure names every missing key, no command
    is sent and the state is untouched. *)
Theorem init_requires_state s k :
  k ∈ init_keys →
  provided (env s) k = false →
  init_bluegreen s
  = Err (MissingState (filter (λ k, provided (env s) k = false) init_keys)) s
  ∧ k ∈ filter (λ k, provided (env s) k = false) init_keys.
Proof.
  intros Hk Hp. destruct (require_missing init_keys s k Hk Hp) as [Hr Hin].
  split; [|done]. unfold init_bluegreen. by rewrite (bind_err _ _ _ _ _ Hr).
Qed.

(** X11. [swap_bluegreen] called before the four names [init_bluegreen]
    caches are in [env] stops at [require]: the failure names every
    missing key, no link is touched and the state is untouched. *)
Theorem swap_requires_state s k :
  k ∈ swap_keys →
  provided (env s) k = false →
  swap_bluegreen s
  = Err (MissingState (filter (λ k, provided (env s) k = false) swap_keys)) s
  ∧ k ∈ filter (λ k, provided (env s) k = false) swap_keys.
Proof.
  intros Hk Hp. destruct (require_missing swap_keys s k Hk Hp) as [Hr Hin].
  split; [|done]. unfold swap_bluegreen. by rewrite (bind_err _ _ _ _ _ Hr).
Qed.

End Missing.

Section Grows.
Implicit Types (s : state store) (fs : store).

Lemma world_grows_ret {A} (a : A) : world_grows (ret a).
Proof. by intros s. Qed.

Lemma world_grows_fail {A} f : world_grows (@fail store A f).
Proof. by intros s. Qed.

Lemma world_grows_bind {A B} (m : M store A) (k : A → M store B) :
  world_grows m → (∀ a, world_grows (k a)) → world_grows (bind m k).
Proof.
  intros Hm Hk s. unfold bind. specialize (Hm s).
  destruct (m s) as [a s1|f s1]; simpl in *; [|done].
  etrans; [exact Hm | apply Hk].
Qed.

Lemma world_grows_set_env k v : world_grows (set_env k v).
Proof. by intros s. Qed.

Lemma world_grows_env_get k : world_grows (env_get k).
Proof. intros s. unfold env_get. by destruct (env s !! k). Qed.

Lemma world_grows_env_fmt k : world_grows (env_fmt k).
Proof. intros s. unfold env_fmt. by destruct (env s !! k). Qed.

Lemma world_grows_env_path k : world_grows (env_path k).
Proof.
  apply world_grows_bind; [apply world_grows_env_get |].
  intros []; first [apply world_grows_ret | apply world_grows_fail].
Qed.

Lemma world_grows_require keys : world_grows (require keys).
Proof. intros s. unfold require. by destruct (filter _ keys). Qed.

Lemma world_grows_remote who quiet c :
  (∀ fs, fs ⊆ (host_remote c fs).2) → world_grows (remote who quiet c).
Proof.
  intros Hc s. unfold remote. cbn [exec_remote host_executor].
  specialize (Hc (world s)). destruct (host_remote c (world s)) as [r w].
  by destruct (failed r && negb (quiet || warn_only s)).
Qed.

Lemma world_grows_run c :
  (∀ fs, fs ⊆ (host_remote c fs).2) → world_grows (run c).
Proof.
  intros Hc. apply world_grows_bind; [by apply world_grows_remote |].
  intros r. apply world_grows_ret.
Qed.

Lemma world_grows_exists p b : world_grows (exists_ p b).
Proof.
  apply world_grows_bind; [by apply world_grows_remote |].
  intros r. apply world_grows_ret.
Qed.

Lemma mkdir_p_sub ps fs : fs ⊆ (host_remote (MkdirP ps) fs).2.
Proof.
  unfold host_remote, mkdir_p.
  destruct (foldl mkdir_p1 (fs, false) ps) as [fs1 b1] eqn:E.
  by destruct (mkdir_p_acc _ _ _ _ _ E) as [? _].
Qed.

Lemma ln_s_host_sub t l fs : fs ⊆ (host_remote (LnS t l) fs).2.
Proof.
  unfold host_remote. pose proof (ln_s_sub fs t l) as Hs.
  by destruct (ln_s fs t l).
Qed.

Lemma readlink_sub p fs : fs ⊆ (host_remote (ReadlinkF p) fs).2.
Proof. unfold host_remote. by destruct (realpath fs p). Qed.

Lemma world_grows_port_of : world_grows port_of.
Proof.
  apply world_grows_bind; [apply world_grows_env_get |].
  intros []; try apply world_grows_fail.
  apply world_grows_bind; [apply world_grows_env_get |].
  intros c. apply world_grows_ret.
Qed.

Lemma world_grows_link t l (there : bool) :
  world_grows
    (if there then ret tt
     else let! a := env_fmt t in
          let! b := env_fmt l in
          do! run (LnS a b) in ret tt).
Proof.
  destruct there; [apply world_grows_ret |].
  apply world_grows_bind; [apply world_grows_env_fmt |]. intros a.
  apply world_grows_bind; [apply world_grows_env_fmt |]. intros b.
  apply world_grows_bind; [apply world_grows_run, ln_s_host_sub |].
  intros _. apply world_grows_ret.
Qed.

End Grows.

(** X12. Whatever its outcome, [init_bluegreen] only adds to the host:
    every name that was there when it started is still there, bound to
    what it was bound to.  It replaces no link and no directory. *)
Theorem init_only_adds (s : state store) :
  world s ⊆ world (final_state (init_bluegreen s)).
Proof.
  revert s. change (world_grows init_bluegreen). unfold init_bluegreen.
  repeat first
    [ apply world_grows_ret
    | apply world_grows_set_env
    | apply world_grows_port_of
    | apply world_grows_link
    | apply world_grows_bind;
        [ first [ apply world_grows_require
                | apply world_grows_env_path
                | apply world_grows_env_fmt
                | apply world_grows_env_get
                | apply world_grows_set_env
                | apply world_grows_exists
                | apply world_grows_port_of
                | apply world_grows_link
                | apply world_grows_run, mkdir_p_sub
                | apply world_grows_run, readlink_sub ]
        | intros ? ] ].
Qed.

Lemma not_layout_key k :
  k ∉ layout_keys →
  ∀ e N L m root,
    derived_env N L m (paths_env root e) !! k = e !! k.
Proof.
  intros Hk e N L m root. unfold layout_keys in Hk.
  repeat (apply not_elem_of_cons in Hk as [? Hk]).
  unfold derived_env, paths_env. by rewrite !lookup_insert_ne by done.
Qed.

(** A run of [init_bluegreen] on a site, read back from its result. *)
Lemma init_site_inv (s s' : state store) root :
  env s !! "bluegreen_root" = Some (VStr root) →
  layout_site (world s) root = true →
  init_bluegreen s = Ok tt s' →
  ∃ m N L,
    env s !! "bluegreen_ports" = Some (VPorts m)
    ∧ env s' = derived_env N L m (paths_env root (env s))
    ∧ Forall (λ d, world s' !! d = Some Dir) (layout_dirs root)
    ∧ world s' !! path_join root "live" = Some (Link L)
    ∧ world s' !! path_join root "next" = Some (Link N)
    ∧ (L = path_join root "blue" ∨ L = path_join root "green")
    ∧ (N = path_join root "blue" ∨ N = path_join root "green")
    ∧ (∀ y, world s !! path_join root "live" = Some (Link y) → L = y)
    ∧ (∀ y, world s !! path_join root "next" = Some (Link y) → N = y).
Proof.
  intros Hroot Hsite Hok.
  destruct (init_ok_inv _ _ Hok) as (root' & pv & Hroot' & Hpv & _ & Hpure).
  assert (root' = root) as -> by congruence.
  destruct (init_pure_inv _ _ _ _ _ _ _ Hpure)
    as (_ & _ & _ & _ & _ & m & _ & _ & _ & _ & _ & -> & _).
  destruct (init_pure_site root m (warn_only s) (env s) (world s) Hsite)
    as (fs3 & N & L & Hp & Hd & Hl & Hn & HLs & HNs & _ & _ & HLy & HNy).
  rewrite Hp in Hpure. injection Hpure as He Hw. rewrite <- Hw.
  by exists m, N, L.
Qed.

(** X13. What a successful [init_bluegreen] leaves in [env] on a site:
    the four names under the root; [next_path] and [live_path] as the
    names [next] and [live] lead to on the host when it returns (for a
    link that was there before, the slot it was a link to); the
    virtualenv, pid file and nginx configuration under [next_path]; the
    color as the last component of [next_path]; the port the mapping has
    for that color ([None] when it has none); and every other key as it
    was. *)
Theorem init_env (s s' : state store) root :
  env s !! "bluegreen_root" = Some (VStr root) →
  layout_site (world s) root = true →
  init_bluegreen s = Ok tt s' →
  ∃ m N L,
    env s !! "bluegreen_ports" = Some (VPorts m)
    ∧ points_to (world s') (path_join root "next") = Some N
    ∧ points_to (world s') (path_join root "live") = Some L
    ∧ world s' !! path_join root "next" = Some (Link N)
    ∧ world s' !! path_join root "live" = Some (Link L)
    ∧ (∀ y, world s !! path_join root "next" = Some (Link y) → N = y)
    ∧ (∀ y, world s !! path_join root "live" = Some (Link y) → L = y)
    ∧ env s' !! "green_path" = Some (VStr (path_join root "green"))
    ∧ env s' !! "blue_path" = Some (VStr (path_join root "blue"))
    ∧ env s' !! "next_path_abs" = Some (VStr (path_join root "next"))
    ∧ env s' !! "live_path_abs" = Some (VStr (path_join root "live"))
    ∧ env s' !! "next_path" = Some (VStr N)
    ∧ env s' !! "live_path" = Some (VStr L)
    ∧ env s' !! "virtualenv_path" = Some (VStr (path_join N "env"))
    ∧ env s' !! "pidfile"
      = Some (VStr (path_join (path_join N "etc") "app.pid"))
    ∧ env s' !! "nginx_conf"
      = Some (VStr (path_join (path_join N "etc") "nginx.conf"))
    ∧ env s' !! "color" = Some (VStr (basename N))
    ∧ env s' !! "bluegreen_port"
      = Some (match m !! basename N with
              | Some n => VInt n
              | None => VNone
              end)
    ∧ (∀ k, k ∉ layout_keys → env s' !! k = env s !! k).
Proof.
  intros Hroot Hsite Hok.
  destruct (init_site_inv _ _ _ Hroot Hsite Hok)
    as (m & N & L & Hpv & He & Hd & Hl & Hn & HLs & HNs & HLy & HNy).
  assert (Hslot : ∀ t, t = path_join root "blue" ∨ t = path_join root "green" →
                       world s' !! t = Some Dir).
  { intros t [-> | ->]; (eapply Forall_forall in Hd; [exact Hd |]);
      [apply blue_in_layout | apply green_in_layout]. }
  destruct (link_to_dir _ _ _ Hl (Hslot _ HLs)) as (Hrl & _ & _).
  destruct (link_to_dir _ _ _ Hn (Hslot _ HNs)) as (Hrn & _ & _).
  exists m, N, L. rewrite He.
  split; [done |]. split; [exact Hrn |]. split; [exact Hrl |].
  split; [done |]. split; [done |]. split; [done |]. split; [done |].
  repeat (split; [by env_lookup |]).
  intros k Hk. by apply not_layout_key.
Qed.

(** X14. After a successful [init_bluegreen] on a site, in either mode,
    the root, both slots and their [etc] directories are directories on
    the host, [live] and [next] are there and lead to a directory, and
    [env.next_path] and [env.live_path] are the names the two lead
    to. *)
Theorem init_host (s s' : state store) root :
  env s !! "bluegreen_root" = Some (VStr root) →
  layout_site (world s) root = true →
  init_bluegreen s = Ok tt s' →
  Forall (λ d, is_directory (world s') d = true) (layout_dirs root)
  ∧ test_e (world s') (path_join root "live") = true
  ∧ test_e (world s') (path_join root "next") = true
  ∧ is_directory (world s') (path_join root "live") = true
  ∧ is_directory (world s') (path_join root "next") = true
  ∧ (∃ N, env s' !! "next_path" = Some (VStr N)
          ∧ points_to (world s') (path_join root "next") = Some N)
  ∧ (∃ L, env s' !! "live_path" = Some (VStr L)
          ∧ points_to (world s') (path_join root "live") = Some L).
Proof.
  intros Hroot Hsite Hok.
  destruct (init_site_inv _ _ _ Hroot Hsite Hok)
    as (m & N & L & Hpv & He & Hd & Hl & Hn & HLs & HNs & _ & _).
  assert (Hslot : ∀ t, t = path_join root "blue" ∨ t = path_join root "green" →
                       world s' !! t = Some Dir).
  { intros t [-> | ->]; (eapply Forall_forall in Hd; [exact Hd |]);
      [apply blue_in_layout | apply green_in_layout]. }
  destruct (link_to_dir _ _ _ Hl (Hslot _ HLs)) as (Hrl & Htl & Hdl).
  destruct (link_to_dir _ _ _ Hn (Hslot _ HNs)) as (Hrn & Htn & Hdn).
  split.
  { eapply Forall_impl; [exact Hd |]. intros d. apply is_directory_here. }
  repeat (split; [done |]). split.
  - exists N. split; [rewrite He; env_lookup | exact Hrn].
  - exists L. split; [rewrite He; env_lookup | exact Hrl].
Qed.

Lemma test_e_realpath (fs : store) p :
  test_e fs p = true → ∃ q, realpath fs p = Some q.
Proof. unfold test_e. destruct (realpath fs p); [eauto | done]. Qed.


Lemma ln_dest_plain (fs : store) t l :
  real_dir fs l = false → ln_dest fs t l = Some l.
Proof. intros Hl. unfold ln_dest. by rewrite Hl. Qed.

Lemma provided_str (e : gmap string value) k x :
  e !! k = Some (VStr x) → provided e k = true.
Proof. intros Hk. unfold provided. by rewrite Hk. Qed.


(** X17. [swap_bluegreen] never replaces a directory and never makes one:
    after a successful swap the same names are real directories as
    before, and [env] is as it was. *)
Theorem swap_keeps_directories (s s' : state store) :
  swap_bluegreen s = Ok tt s' →
  same_dirs (world s) (world s') ∧ env s' = env s.
Proof.
  intros Hok.
  destruct (swap_ok_inv _ _ Hok)
    as (n & l & la & na & fs' & _ & _ & _ & _ & _ & Hsw & ->).
  split; [|done]. cbn [world]. revert Hsw. unfold swap_pure.
  rewrite guard_ln_nsf.
  assert (Hstep : ∀ (fs : store) t d w o fs1,
    match ln_dest fs t d with
    | Some x => Some ("", <[x:=Link t]> fs)
    | None => if w : bool then Some ("", fs) else None
    end = Some (o, fs1) → same_dirs fs fs1).
  { intros fs t d w o fs1. destruct (ln_dest fs t d) as [x|] eqn:D.
    - intros [= _ <-]. by eapply same_dirs_insert, ln_dest_not_dir.
    - destruct w; [|done]. by intros [= _ <-]. }
  destruct (match ln_dest (world s) (str n) (str la) with
            | Some x => _ | None => _ end) as [[o1 fs1]|] eqn:G1; [|done].
  rewrite guard_ln_nsf.
  destruct (match ln_dest fs1 (str l) (str na) with
            | Some x => _ | None => _ end) as [[o2 fs2]|] eqn:G2; [|done].
  intros [= <-].
  eapply same_dirs_trans; by eapply Hstep.
Qed.

Section Tasks.
Context {W : Type} `{Executor W}.

(** X18. The two opt-in tasks touch nothing but their own key in [env],
    in either order: afterwards the dirty check answers false without
    running a command, the push carries [-f], and the host, the log and
    every other key are as before. *)
Theorem opt_in_tasks (s : state W) iu :
  let s' := final_state ((do! allow_dirty in force_push) s) in
  (do! allow_dirty in force_push) s = Ok tt s'
  ∧ (do! force_push in allow_dirty) s = Ok tt s'
  ∧ world s' = world s
  ∧ log s' = log s
  ∧ git_is_dirty iu s' = Ok false s'
  ∧ force_flag s' = "-f"
  ∧ (∀ k, k ≠ "gitric_allow_dirty" → k ≠ "gitric_force_push" →
          env s' !! k = env s !! k).
Proof.
  unfold allow_dirty, force_push, bind, set_env. cbn.
  repeat split.
  - by rewrite insert_insert_ne.
  - unfold git_is_dirty, bind, env_has. cbn.
    rewrite lookup_insert_ne by done. by rewrite lookup_insert_eq.
  - unfold force_flag. cbn. by rewrite lookup_insert_eq.
  - intros k H1 H2. by rewrite !lookup_insert_ne.
Qed.

End Tasks.

(** ** The further properties on the scenarios *)

Lemma git_init_existing_witness :
  git_init "/srv/repo" false None reseeded
  = Ok tt
      (State (env reseeded) (world reseeded)
         [ERemote None "" (TestE "/srv/repo/.git");
          ERemote None "" (Git config_line)]).
Proof.
  exact (git_init_existing "/srv/repo" false None reseeded
           (Reply "" false) (world reseeded) (Reply "" false) (world reseeded)
           eq_refl eq_refl eq_refl).
Defined.

Lemma git_init_creates_witness :
  git_init "/srv/repo" false None accepted
  = Ok tt
      (State (env accepted) (world accepted)
         [ERemote None "" (TestE "/srv/repo/.git");
          ERemote None "" (MkdirP ["/srv/repo"]);
          ERemote None "/srv/repo" (Git "init");
          ERemote None "/srv/repo" (Git config_line)]).
Proof.
  exact (git_init_creates "/srv/repo" false None accepted
           (Reply "" true) (world accepted) (Reply "" false) (world accepted)
           (Reply "" false) (world accepted) (Reply "" false) (world accepted)
           eq_refl eq_refl eq_refl eq_refl eq_refl eq_refl eq_refl).
Defined.

Lemma seed_returns_after_push_witness :
  ∃ c b u s3 h p r,
    seed_resolved "/srv/repo" None None false false None None accepted
    = Ok (c, b, u) s3
    ∧ pushes (log (final_state
         (git_seed "/srv/repo" None None false false None None accepted)))
      = pushes (log accepted)
        ++ [ELocal (push_line u (str h) (str p) "/srv/repo" c b
                      (force_flag accepted))]
    ∧ failed r = false.
Proof.
  destruct (seed_returns_after_push "/srv/repo" None None false false None
              None accepted
              (final_state
                 (git_seed "/srv/repo" None None false false None None
                    accepted)))
    as (c & b & u & s3 & h & p & r & Hr & _ & _ & _ & Hf & _ & Hp & _).
  - vm_compute. reflexivity.
  - exists c, b, u, s3, h, p, r.
    split; [exact Hr |]. split; [exact Hp | exact Hf].
Defined.

Lemma seed_fails_before_push_witness :
  let s' := final_state
              (seed_resolved "/srv/repo" None None false false None None
                 off_branch) in
  git_seed "/srv/repo" None None false false None None off_branch
  = Err (Aborted "Can not push: commit abc123 is not in branch main") s'
  ∧ pushes (log s') = pushes (log off_branch).
Proof.
  intros s'.
  apply (seed_fails_before_push "/srv/repo" None None false false None None
           off_branch).
  vm_compute. reflexivity.
Defined.

Lemma seed_remote_calls_are_git_init_witness :
  let s1 := final_state (git_is_dirty false accepted) in
  remote_calls (log s1) = remote_calls (log accepted)
  ∧ remote_calls
      (log (final_state
              (git_seed "/srv/repo" None None false false None None accepted)))
    = remote_calls (log (final_state (git_init "/srv/repo" false None s1))).
Proof.
  intros s1.
  apply (seed_remote_calls_are_git_init "/srv/repo" None None false false
           None None accepted s1).
  vm_compute. reflexivity.
Defined.

Lemma git_reset_runs_witness :
  git_reset "/srv/repo" (Some "v1.2") false None accepted
  = Ok tt
      (State (env accepted) (world accepted)
         [ERemote None "/srv/repo" (Git "reset --hard v1.2")])
  ∧ git_reset "/srv/repo" None false None accepted
    = Ok tt
        (State (env accepted) (world accepted)
           [ELocal "git rev-parse HEAD";
            ERemote None "/srv/repo" (Git "reset --hard abc123")]).
Proof.
  split.
  - exact (proj1 (git_reset_runs "/srv/repo" (Some "v1.2") false None
                    accepted)
             "v1.2" (Reply "" false) (world accepted) eq_refl
             ltac:(discriminate) eq_refl).
  - exact (proj2 (proj2 (git_reset_runs "/srv/repo" None false None
                           accepted)
                    (Reply "abc123" false) (world accepted)
                    (or_introl eq_refl) eq_refl)
             (or_introl eq_refl) (Reply "" false) (world accepted) eq_refl).
Defined.

Lemma seed_local_commands_witness :
  ∃ c b u h p,
    local_calls
      (log (final_state
              (git_seed "/srv/repo" None None false false None None accepted)))
    = local_calls (log accepted) ++
      [ELocal (status_line false);
       ELocal "git rev-parse HEAD";
       ELocal "git rev-parse --abbrev-ref HEAD";
       ELocal (contains_line c);
       ELocal (push_line u h p "/srv/repo" c b (force_flag accepted))].
Proof.
  apply (seed_local_commands "/srv/repo" false false None None accepted).
  - vm_compute. reflexivity.
  - vm_compute. reflexivity.
Defined.

Lemma seed_override_ignores_untracked_witness :
  git_seed "/srv/repo" None None true false None None overridden
  = git_seed "/srv/repo" None None false false None None overridden.
Proof.
  apply (seed_override_ignores_untracked "/srv/repo" None None false None
           None overridden (VBool false)).
  vm_compute. reflexivity.
Defined.

Lemma init_requires_state_witness :
  init_bluegreen unset_ports
  = Err (MissingState ["bluegreen_ports"]) unset_ports.
Proof.
  destruct (init_requires_state unset_ports "bluegreen_ports") as [Hr _].
  - apply list_elem_of_lookup. by exists 1.
  - vm_compute. reflexivity.
  - etrans; [exact Hr |]. vm_compute. reflexivity.
Defined.

Lemma swap_requires_state_witness :
  swap_bluegreen scenario = Err (MissingState swap_keys) scenario.
Proof.
  destruct (swap_requires_state scenario "next_path") as [Hr _].
  - apply list_elem_of_lookup. by exists 0.
  - vm_compute. reflexivity.
  - etrans; [exact Hr |]. vm_compute. reflexivity.
Defined.

Lemma init_env_witness :
  ∃ m,
    env scenario_swapped !! "bluegreen_ports" = Some (VPorts m)
    ∧ points_to
        (world (final_state (init_bluegreen scenario_swapped)))
        (path_join "/srv/app" "next") = Some "/srv/app/blue"
    ∧ env (final_state (init_bluegreen scenario_swapped)) !! "next_path"
      = Some (VStr "/srv/app/blue")
    ∧ env (final_state (init_bluegreen scenario_swapped)) !! "color"
      = Some (VStr (basename "/srv/app/blue"))
    ∧ env (final_state (init_bluegreen scenario_swapped)) !! "warn_only"
      = env scenario_swapped !! "warn_only".
Proof.
  destruct (init_env scenario_swapped
              (final_state (init_bluegreen scenario_swapped)) "/srv/app")
    as (m & N & L & Hm & HpN & _ & _ & _ & HNy & _ & _ & _ & _ & _ & HN & _
        & _ & _ & _ & Hc & _ & Hframe).
  - vm_compute. reflexivity.
  - vm_compute. reflexivity.
  - vm_compute. reflexivity.
  - assert (N = "/srv/app/blue") as ->.
    { apply HNy. vm_compute. reflexivity. }
    exists m. split; [exact Hm |]. split; [exact HpN |].
    split; [exact HN |]. split; [exact Hc |].
    apply Hframe. unfold layout_keys.
    repeat (apply not_elem_of_cons; split; [done |]). apply not_elem_of_nil.
Defined.

Lemma init_host_witness :
  Forall (λ d, is_directory (world scenario_ready) d = true)
    (layout_dirs "/srv/app")
  ∧ test_e (world scenario_ready) (path_join "/srv/app" "live") = true
  ∧ test_e (world scenario_ready) (path_join "/srv/app" "next") = true
  ∧ is_directory (world scenario_ready) (path_join "/srv/app" "live") = true
  ∧ is_directory (world scenario_ready) (path_join "/srv/app" "next") = true
  ∧ (∃ N, env scenario_ready !! "next_path" = Some (VStr N)
          ∧ points_to (world scenario_ready) (path_join "/srv/app" "next")
            = Some N)
  ∧ (∃ L, env scenario_ready !! "live_path" = Some (VStr L)
          ∧ points_to (world scenario_ready) (path_join "/srv/app" "live")
            = Some L).
Proof.
  apply (init_host scenario scenario_ready "/srv/app").
  - vm_compute. reflexivity.
  - vm_compute. reflexivity.
  - vm_compute. reflexivity.
Defined.



Lemma swap_keeps_directories_witness :
  same_dirs (world scenario_ready) (world scenario_swapped)
  ∧ env scenario_swapped = env scenario_ready.
Proof.
  apply (swap_keeps_directories scenario_ready scenario_swapped).
  vm_compute. reflexivity.
Defined.
